(** * COFB-Midori64: a shallow embedding of the cipher and of the mode driver

    The C sources (src/midori.c, src/cofb.c, lib/midori.h, lib/misc.h,
    lib/cofb.h) work on fixed-width unsigned integers.  They are embedded
    here as functions on [Z]; every conversion to a narrower C type is
    written out as a reduction modulo a power of two. *)

From Stdlib Require Import ZArith List Lia Bool FinFun.
Import ListNotations.
Local Open Scope Z_scope.

(** ** Machine integers (lib/misc.h) *)

Module Mach.

(** [byte], [nibble]: uint8_t; [tn2]: uint32_t; [bloque]: uint64_t. *)
Definition u8  (x : Z) : Z := x mod 2 ^ 8.
Definition u32 (x : Z) : Z := x mod 2 ^ 32.
Definition u64 (x : Z) : Z := x mod 2 ^ 64.

(** Left shift of an unsigned 32/64-bit operand: the result wraps. *)
Definition shl32 (x k : Z) : Z := u32 (Z.shiftl x k).
Definition shl64 (x k : Z) : Z := u64 (Z.shiftl x k).

Definition is_nibble (x : Z) : Prop := 0 <= x < 16.
Definition is_tn2    (x : Z) : Prop := 0 <= x < 2 ^ 32.
Definition is_bloque (x : Z) : Prop := 0 <= x < 2 ^ 64.

End Mach.
Import Mach.

(** ** Constants of lib/midori.h *)

Definition n   : Z := 0x04.
Definition nxn : Z := 0x10.
Definition r   : Z := 0x10.

Definition maxPn : Z := 0x80000000.
Definition poliN : Z := 0x10000001b.

Definition Sb0         : Z := 0xcad3ebf789150246.
Definition shuffleP    : Z := 0x0a5fe4b193c67d28.
Definition shufflePInv : Z := 0x07e952bcf816ad43.

Definition keyAdd (A B : Z) : Z := Z.lxor A B.

(** ** Nibble primitives (src/midori.c) *)

(** [nibble obtNibble(bloque S, nibble pos)]:
    [des = (nxn-pos-1)<<1] is stored in a [byte];
    [val = (S >> des >> des) & 0xf] is stored in a [nibble]. *)
Definition obtNibble (S pos : Z) : Z :=
  let des := u8 (Z.shiftl (nxn - pos - 1) 1) in
  let val := u8 (Z.land (Z.shiftr (Z.shiftr S des) des) 0xf) in
  val.

(** [bloque asgNibble(bloque S, nibble pos, nibble val)]. *)
Definition asgNibble (S pos val : Z) : Z :=
  let des  := u8 (Z.shiftl (nxn - pos - 1) 1) in
  let tmp  := shl64 (shl64 val des) des in
  let msk  := shl64 (shl64 0x000000000000000f des) des in
  let mskS := Z.land msk S in
  Z.lxor (Z.lxor tmp mskS) S.

(** ** Arrays and loops *)

(** A C array of [bloque] is a map from index to content; a store changes
    one cell. *)
Definition store (A : Z -> Z) (i v : Z) : Z -> Z :=
  fun k => if k =? i then v else A k.

(** The index values [0, 1, ..., k-1] of a counting [for] loop. *)
Definition upto (k : Z) : list Z := map Z.of_nat (seq 0 (Z.to_nat k)).

(** A master key [bloque Ki[2]]. *)
Definition key : Type := (Z * Z)%type.
Definition Ki_at (Ki : key) (idx : Z) : Z :=
  if idx =? 0 then fst Ki else snd Ki.

(** [const dbyte beta[0x10]]. *)
Definition beta : list Z :=
  [ 0x15b3; 0x78c0; 0xa435; 0x6213; 0x104f; 0xd170; 0x0266; 0x0bcc;
    0x9481; 0x40b8; 0x7197; 0x228e; 0x5130; 0xf8ca; 0xdf90; 0x7c81 ].
Definition beta_at (i : Z) : Z := nth (Z.to_nat i) beta 0.

(** ** Automatic variables read before they are written

    [subCell], [shuffleCell] and [mixColumn] build their result with
    [X = asgNibble(X, i, v)] from a local [X] that has no initialiser, and
    [midori] hands the uninitialised array [RK] to [keyGen], which does the
    same to each [RK[i]].  The content such a variable has when the function
    starts is a parameter of the embedding: [uSC U i], [uSH U i], [uMC U i]
    are the contents found by the calls of round [i] ([uSC U 15] by the final
    [subCell]) and [uRK U] is the initial content of [RK].  A driver hands
    one [U] to all its calls of [midori]; [midori_stack] below shows that
    the result of [midori] does not depend on it. *)
Record stack : Type := mkStack {
  uRK : Z -> Z;
  uSC : Z -> Z;
  uSH : Z -> Z;
  uMC : Z -> Z
}.

Definition stack_ok (U : stack) : Prop :=
  forall i, is_bloque (uRK U i) /\ is_bloque (uSC U i) /\
            is_bloque (uSH U i) /\ is_bloque (uMC U i).

(** ** Key schedule (src/midori.c) *)

(** [bloque keyGen(bloque RK[r], bloque Ki[2])]: returns [WK], fills [RK]. *)
Definition keyGen (RK : Z -> Z) (Ki : key) : Z * (Z -> Z) :=
  let WK := Z.lxor (Ki_at Ki 0) (Ki_at Ki 1) in
  let RK :=
    fold_left (fun RK i =>
      fold_left (fun RK j =>
        let bit := u8 (Z.land (Z.shiftr (beta_at i) (nxn - j - 1)) 0x1) in
        let val := obtNibble (Ki_at Ki (Z.land i 0x1)) j in
        store RK i (asgNibble (RK i) j (u8 (Z.lxor val bit))))
      (upto nxn) RK)
    (upto (r - 2 + 1)) RK in
  (WK, RK).

(** ** Round primitives (src/midori.c) *)

(** [bloque subCell(bloque S)]; [SC] is the content of the local [SC] at
    entry. *)
Definition subCell (SC S : Z) : Z :=
  fold_left (fun SC i =>
    let indiceI := obtNibble S i in
    let indiceJ := obtNibble Sb0 indiceI in
    asgNibble SC i indiceJ)
  (upto nxn) SC.

(** [bloque shuffleCell(bloque S, byte inv)]. *)
Definition shuffleCell (SH S inv : Z) : Z :=
  fold_left (fun SH i =>
    let indiceI := obtNibble (if inv =? 0 then shuffleP else shufflePInv) i in
    let indiceJ := obtNibble S indiceI in
    asgNibble SH i indiceJ)
  (upto nxn) SH.

(** [bloque mixColumn(bloque S)]: [i] runs over 0, 4, 8, 12; the [while]
    loop visits [j] = 3, 2, 1, 0. *)
Definition mixColumn (MC S : Z) : Z :=
  fold_left (fun MC i =>
    let tmp :=
      fold_left (fun tmp j => Z.lxor tmp (obtNibble S (i + j)))
                (rev (upto n)) 0 in
    fold_left (fun MC j =>
      asgNibble MC (i + j) (u8 (Z.lxor tmp (obtNibble S (i + j)))))
    (upto n) MC)
  (map (fun c => n * c) (upto (nxn / n))) MC.

(** ** Cipher driver (src/midori.c) *)

(** [bloque midori(bloque S, bloque Ki[2], byte inv)]. *)
Definition midori (U : stack) (S : Z) (Ki : key) (inv : Z) : Z :=
  let '(WK, RK) := keyGen (uRK U) Ki in
  let S := keyAdd S WK in
  let S :=
    fold_left (fun S i =>
      let S := subCell (uSC U i) S in
      let S := if inv =? 0 then shuffleCell (uSH U i) S 0
               else mixColumn (uMC U i) S in
      let S := if inv =? 0 then mixColumn (uMC U i) S
               else shuffleCell (uSH U i) S (u8 (-1)) in
      keyAdd S (RK i))
    (upto (r - 2 + 1)) S in
  let S := subCell (uSC U (r - 1)) S in
  let Y := keyAdd S WK in
  Y.

(** ** Field kernel (src/cofb.c, lib/cofb.h) *)

(** The three [static tn2] variables of lib/cofb.h. *)
Record FieldState : Type := mkFieldState {
  mx2 : Z;
  mx2x3 : Z;
  mx2x3x3 : Z
}.

(** Static storage is zero-initialised when the process starts. *)
Definition fresh : FieldState := mkFieldState 0 0 0.

(** [bloque maskGen(bloque Y0)]. *)
Definition maskGen (Y0 : Z) : Z :=
  let beta := Z.land (Z.shiftr Y0 0x10) 0xffffffff in
  beta.

(** [tn2 gsuma(tn2 a, tn2 b)]: [poliN] does not fit 32 bits, the xor is
    done in 64 bits and the result is stored in a [tn2]. *)
Definition gsuma (a b : Z) : Z :=
  let suma := u32 (Z.lxor (Z.lxor a poliN) (Z.lxor b poliN)) in
  suma.

(** [tn2 gdoble(tn2 a)]: [a << 1] is a 32-bit shift; the xor with [poliN]
    is done in 64 bits and the result is stored in a [tn2]. *)
Definition gdoble (a : Z) : Z :=
  let doble :=
    u32 (if Z.land a maxPn =? 0 then shl32 a 1
         else Z.lxor (shl32 a 1) poliN) in
  doble.

(** [tn2 gtriple(tn2 a)]. *)
Definition gtriple (a : Z) : Z :=
  let doble := gdoble a in
  let triple := gsuma a doble in
  triple.

(** [tn2 goper(byte finB, tn2 alf)]: returns the mask and the new content
    of the static variables. *)
Definition goper (f : FieldState) (finB alf : Z) : Z * FieldState :=
  let mask := 0 in
  if finB =? 1 then
    let f := mkFieldState (gdoble (mx2 f)) (mx2x3 f) (mx2x3x3 f) in
    (mx2 f, f)
  else if finB =? 2 then
    let f := mkFieldState (mx2 f) (gtriple (mx2 f)) (mx2x3x3 f) in
    (mx2x3 f, f)
  else if finB =? 3 then
    let f := mkFieldState (gdoble (mx2 f)) (mx2x3 f) (mx2x3x3 f) in
    let f := mkFieldState (mx2 f) (gtriple (mx2 f)) (mx2x3x3 f) in
    (mx2x3 f, f)
  else if finB =? 4 then
    let f := mkFieldState (mx2 f) (mx2x3 f) (gtriple (gtriple (mx2 f))) in
    (mx2x3x3 f, f)
  else (mask, f).

(** [bloque mask(bloque beta, bloque B, byte finB)]: [beta] is converted to
    the [tn2] parameter of [goper]. *)
Definition mask (f : FieldState) (beta B finB : Z) : Z * FieldState :=
  let '(enmsk, f) := goper f finB (u32 beta) in
  (enmsk, f).

(** [bloque mulGY(bloque Y)]. *)
Definition mulGY (Y : Z) : Z :=
  let GY := Z.land (shl64 Y 16) 0xffffffffffffffff in
  let GY := Z.lor GY (Z.lxor (Z.shiftr (Z.shiftr Y 16) 32) (Z.land Y 0xffff)) in
  GY.

(** ** COFB drivers (src/cofb.c)

    Both drivers read their blocks from standard input inside the
    processing loop.  One pass of the loop reads sixteen characters, parses
    them into [B] and tests whether the text just read ends a line
    ([isblank(chr) || chr=='\n' || hayNL(blq)]).  The embedding takes the
    input already cut up this way: one [token] per pass of the loop, holding
    the block stored in [B] and the outcome of the end-of-line test. *)
Record token : Type := mkToken {
  tok_B : Z;
  tok_eol : bool
}.

(** The local variables of a driver that live across loop passes, the
    static field state, and the blocks printed so far. *)
Record driver : Type := mkDriver {
  exp : Z;
  aom : Z;
  Y : Z;
  field : FieldState;
  printed : list Z
}.

(** The [if] after the parse: an end of line bumps [exp] and [aom]. *)
Definition boundary (eol : bool) (exp : Z) : Z :=
  if eol then u8 (exp + 1) else exp.

(** The [switch(exp)] that closes the loop body. *)
Definition advance (exp : Z) : Z :=
  if exp =? 0 then u8 (exp + 1)
  else if exp =? 2 then u8 (exp + 1)
  else if exp =? 4 then u8 (exp + 1)
  else exp.

(** State of a driver when it reaches its loop: [Y = midori(N,K,0)],
    [beta = maskGen(Y)], [mx2 = beta], [exp = 1], [aom = 0]. *)
Definition COFB_init (U : stack) (K : key) (N : Z) (f : FieldState)
  : Z * driver :=
  let Y := midori U N K 0 in
  let beta := maskGen Y in
  let f := mkFieldState (u32 beta) (mx2x3 f) (mx2x3x3 f) in
  (beta, mkDriver 1 0 Y f []).

(** One pass of the [while] loop of [COFB]. *)
Definition COFB_pass (U : stack) (K : key) (beta : Z) (t : token)
  (d : driver) : driver :=
  let B := tok_B t in
  let exp := boundary (tok_eol t) (exp d) in
  let aom := boundary (tok_eol t) (aom d) in
  let '(msk, f) := mask (field d) beta B exp in
  let GY := mulGY (Y d) in
  let BGY := Z.lxor B GY in
  let X := Z.lxor (shl64 msk 32) BGY in
  let printed :=
    if 2 <? exp then printed d ++ [Z.lxor (Y d) B] else printed d in
  let Y := midori U X K 0 in
  let exp := advance exp in
  mkDriver exp aom Y f printed.

(** One pass of the [while] loop of [dCOFB]. *)
Definition dCOFB_pass (U : stack) (K : key) (beta : Z) (t : token)
  (d : driver) : driver :=
  let B := tok_B t in
  let exp := boundary (tok_eol t) (exp d) in
  let aom := boundary (tok_eol t) (aom d) in
  let '(msk, f) := mask (field d) beta B exp in
  let GY := mulGY (Y d) in
  let BGY := Z.lxor B GY in
  let BGY := if 2 <? exp then Z.lxor (Y d) BGY else BGY in
  let printed :=
    if 2 <? exp then printed d ++ [Z.lxor (Y d) B] else printed d in
  let X := Z.lxor (shl64 msk 32) BGY in
  let Y := midori U X K 0 in
  let exp := advance exp in
  mkDriver exp aom Y f printed.

(** [while(exp<4) { ... }] over the tokens still to be read.  When the
    tokens run out while [exp < 4] the C program goes on reading an
    exhausted stream; that is outside the embedding and gives [None]. *)
Fixpoint drive (pass : token -> driver -> driver) (ts : list token)
  (d : driver) : option driver :=
  if exp d <? 4 then
    match ts with
    | [] => None
    | t :: ts => drive pass ts (pass t d)
    end
  else Some d.

(** [bloque COFB(bloques K, bloque N)]: the final driver state. *)
Definition COFB_run (U : stack) (K : key) (N : Z) (f : FieldState)
  (ts : list token) : option driver :=
  let '(beta, d) := COFB_init U K N f in
  drive (COFB_pass U K beta) ts d.

(** [bloque dCOFB(bloques K, bloque N, bloque T)]: the final driver state. *)
Definition dCOFB_run (U : stack) (K : key) (N T : Z) (f : FieldState)
  (ts : list token) : option driver :=
  let '(beta, d) := COFB_init U K N f in
  drive (dCOFB_pass U K beta) ts d.

(** What a caller observes of a driver: the blocks printed and the tag
    returned ([T = Y]). *)
Definition observe (d : driver) : list Z * Z := (printed d, Y d).

Definition COFB (U : stack) (K : key) (N : Z) (f : FieldState)
  (ts : list token) : option (list Z * Z) :=
  option_map observe (COFB_run U K N f ts).

Definition dCOFB (U : stack) (K : key) (N T : Z) (f : FieldState)
  (ts : list token) : option (list Z * Z) :=
  option_map observe (dCOFB_run U K N T f ts).

(** * The cipher as the specification words it

    These definitions follow the text of the specification (its sections 3,
    4.1, 4.3, 4.4 and 4.5), not the C code; the code is compared with them
    below. *)

Module Spec.

(** 4.1: the nibble at position [p] is [(B >> (4 * (15 - p))) & 0xF]. *)
Definition nib (B p : Z) : Z := Z.land (Z.shiftr B (4 * (15 - p))) 0xF.

(** 3: the block whose nibble at position [p], in bits [60-4p .. 63-4p], is
    [f p]. *)
Definition pack (f : Z -> Z) : Z :=
  fold_right (fun p acc => Z.lor (Z.shiftl (f p) (60 - 4 * p)) acc) 0 (upto 16).

(** 4.3: the output nibble at [p] is [Sb0[S[p]]]. *)
Definition SubCell (S : Z) : Z := pack (fun p => nib Sb0 (nib S p)).

(** 4.3: the output nibble at [p] is the input nibble at [T[p]]. *)
Definition ShuffleCell (S : Z) (inverse : bool) : Z :=
  let T := if inverse then shufflePInv else shuffleP in
  pack (fun p => nib S (nib T p)).

(** 4.3: each nibble is replaced by the parity of its column xor itself. *)
Definition MixColumn (S : Z) : Z :=
  pack (fun p =>
    let c := 4 * (p / 4) in
    let parity :=
      Z.lxor (Z.lxor (Z.lxor (nib S c) (nib S (c + 1))) (nib S (c + 2)))
             (nib S (c + 3)) in
    Z.lxor parity (nib S p)).

Definition KeyAdd (S K : Z) : Z := Z.lxor S K.

(** 4.4: whitening key and round keys. *)
Definition WK (K0 K1 : Z) : Z := Z.lxor K0 K1.

Definition RK (K0 K1 i : Z) : Z :=
  pack (fun j =>
    let bit := Z.land (Z.shiftr (beta_at i) (15 - j)) 1 in
    let src := if i mod 2 =? 0 then K0 else K1 in
    Z.lxor (nib src j) bit).

(** 4.5: whitening, 15 full rounds, final SubCell, whitening. *)
Definition round (K0 K1 S i : Z) : Z :=
  KeyAdd (MixColumn (ShuffleCell (SubCell S) false)) (RK K0 K1 i).

Definition midori (S K0 K1 : Z) : Z :=
  let S := KeyAdd S (WK K0 K1) in
  let S := fold_left (round K0 K1) (upto 15) S in
  let S := SubCell S in
  KeyAdd S (WK K0 K1).

(** 4.6: [x] with its low 16 bits overwritten by the 16-bit value [v];
    rotation of a 64-bit word to the left by 16. *)
Definition overwrite_low16 (x v : Z) : Z := 2 ^ 16 * (x / 2 ^ 16) + v.

Definition rotl16 (x : Z) : Z := Z.lor (u64 (Z.shiftl x 16)) (Z.shiftr x 48).

(** 4.7, counter policy: [exp] starts at 1, advances by one at each input
    boundary, and the loop ends when it reaches 4. *)
Definition next_exp (exp : Z) (eol : bool) : Z :=
  if eol then exp + 1 else exp.

Fixpoint counter (ts : list token) (exp : Z) : option Z :=
  if exp <? 4 then
    match ts with
    | [] => None
    | t :: ts => counter ts (next_exp exp (tok_eol t))
    end
  else Some exp.

End Spec.

(** * Auxiliary definitions used to state and prove the properties *)

(** Bit offset of nibble [p]: nibble 0 is the most significant one. *)
Definition off (p : Z) : Z := 4 * (15 - p).

(** The loop [for each i in l: X = asgNibble(X, i, f i)]. *)
Definition fill (f : Z -> Z) (l : list Z) (X : Z) : Z :=
  fold_left (fun X i => asgNibble X i (f i)) l X.

(** Membership test on index lists. *)
Definition mem (q : Z) (l : list Z) : bool := existsb (Z.eqb q) l.

(** [Spec.pack] restricted to the positions of [l]. *)
Definition pack_on (f : Z -> Z) (l : list Z) : Z :=
  fold_right (fun p acc => Z.lor (Z.shiftl (f p) (60 - 4 * p)) acc) 0 l.

(** The column parity as [mixColumn] accumulates it, from nibble 3 down. *)
Definition column_tmp (S i : Z) : Z :=
  fold_left (fun tmp j => Z.lxor tmp (obtNibble S (i + j))) (rev (upto n)) 0.

(** The value [keyGen] writes into nibble [j] of [RK[i]]. *)
Definition key_nibble (Ki : key) (i j : Z) : Z :=
  let bit := u8 (Z.land (Z.shiftr (beta_at i) (nxn - j - 1)) 0x1) in
  let val := obtNibble (Ki_at Ki (Z.land i 0x1)) j in
  u8 (Z.lxor val bit).

(** The inverse of the feedback map. *)
Definition mulGY_inv (G : Z) : Z :=
  let c := Z.land (Z.shiftr G 16) 0xffff in
  let a := Z.lxor (Z.land G 0xffff) c in
  Z.lor (Z.lor (Z.shiftl a 48) (Z.shiftl (Z.shiftr G 32) 16)) c.

(** A line of input as the loop sees it: the blocks of the line, the last
    one followed by the end of the line. *)
Definition line (bs : list Z) (b : Z) : list token :=
  map (fun x => mkToken x false) bs ++ [mkToken b true].

(** For every pass the loop makes: the value of [exp] at the loop test and
    the value the block is processed with. *)
Fixpoint exp_trace (pass : token -> driver -> driver) (ts : list token)
  (d : driver) : list (Z * Z) :=
  if exp d <? 4 then
    match ts with
    | [] => []
    | t :: ts =>
        (exp d, boundary (tok_eol t) (exp d)) :: exp_trace pass ts (pass t d)
    end
  else [].

(** Two driver states that agree on what the next passes depend on. *)
Definition sync (d d' : driver) : Prop :=
  exp d = exp d' /\ Y d = Y d' /\ mx2 (field d) = mx2 (field d').

(** Two driver states with the same observable part and the same [mx2]. *)
Definition same_view (d d' : driver) : Prop :=
  sync d d' /\ printed d = printed d'.

(** Sample contents of the uninitialised locals, and sample inputs. *)
Definition U0 : stack :=
  mkStack (fun _ => 0) (fun _ => 0) (fun _ => 0) (fun _ => 0).

Definition U1 : stack :=
  mkStack (fun i => u64 (0xdeadbeef00112233 * (i + 1)))
          (fun i => u64 (i * 0x0123456789abcdef + 7))
          (fun _ => 0xffffffffffffffff)
          (fun i => u64 (- i)).

Definition K_ex : key := (0x0123456789ABCDEF, 0xFEDCBA9876543210).
Definition N_ex : Z := 0x0123456789ABCDEF.
Definition stale : FieldState := mkFieldState 0x11111111 0x22222222 0x33333333.

(** * Further functions of the sources *)

(** [bloque keyGenInv(bloque RK_1[r], bloque RK[r])] (src/midori.c): fills
    [RK_1] and returns the last [tmp].  [tmp] is the content of the local
    [tmp] at entry; the calls of [mixColumn] and [shuffleCell] of pass [i]
    find [uMC U i] and [uSH U i] in their uninitialised locals. *)
Definition keyGenInv (U : stack) (tmp : Z) (RK_1 RK : Z -> Z)
  : Z * (Z -> Z) :=
  fold_left (fun (st : Z * (Z -> Z)) i =>
    let tmp := mixColumn (uMC U i) (RK (r - 2 - i)) in
    (tmp, store (snd st) i (shuffleCell (uSH U i) tmp (u8 (-1)))))
  (upto (r - 2 + 1)) (tmp, RK_1).

(** The part of [midori] that follows the call of [keyGen]: the whitening,
    the fifteen rounds, the last [subCell] and the last whitening, for a
    whitening key [WK] and round keys [RK]. *)
Definition rounds (U : stack) (WK : Z) (RK : Z -> Z) (S inv : Z) : Z :=
  let S := keyAdd S WK in
  let S :=
    fold_left (fun S i =>
      let S := subCell (uSC U i) S in
      let S := if inv =? 0 then shuffleCell (uSH U i) S 0
               else mixColumn (uMC U i) S in
      let S := if inv =? 0 then mixColumn (uMC U i) S
               else shuffleCell (uSH U i) S (u8 (-1)) in
      keyAdd S (RK i))
    (upto (r - 2 + 1)) S in
  let S := subCell (uSC U (r - 1)) S in
  let Y := keyAdd S WK in
  Y.

(** The block whose nibble [j] is bit [15 - j] of the 16-bit constant [b]. *)
Definition spread (b : Z) : Z :=
  Spec.pack (fun j => Z.land (Z.shiftr b (15 - j)) 1).

(** One round of [midori] with [inv = 0], and one with [inv <> 0], on the
    round primitives of the specification. *)
Definition enc_round (RK : Z -> Z) (X i : Z) : Z :=
  Z.lxor (Spec.MixColumn (Spec.ShuffleCell (Spec.SubCell X) false)) (RK i).

Definition dec_round (RK : Z -> Z) (X i : Z) : Z :=
  Z.lxor (Spec.ShuffleCell (Spec.MixColumn (Spec.SubCell X)) true) (RK i).

(** The inverse of [gdoble] on 32-bit values. *)
Definition gdoble_inv (d : Z) : Z :=
  if Z.testbit d 0
  then Z.lor (Z.shiftr (Z.lxor d 0x1B) 1) (2 ^ 31)
  else Z.shiftr d 1.

(** For every pass the loop makes: the value the pass assigns to [msk]. *)
Fixpoint mask_trace (pass : token -> driver -> driver) (beta : Z)
  (ts : list token) (d : driver) : list Z :=
  if exp d <? 4 then
    match ts with
    | [] => []
    | t :: ts =>
        fst (mask (field d) beta (tok_B t) (boundary (tok_eol t) (exp d)))
        :: mask_trace pass beta ts (pass t d)
    end
  else [].

(** [gdoble b], [gdoble (gdoble b)], ...: [n] successive doublings of [b]. *)
Fixpoint doubles (n : nat) (b : Z) : list Z :=
  match n with
  | O => []
  | Datatypes.S n => gdoble b :: doubles n (gdoble b)
  end.

(** ** misc.c *)

(** [bloque reverse(bloque a)]: eight passes, each shifting [a] right eight
    times by [desp = i]. *)
Definition reverse (a : Z) : Z :=
  fold_left (fun b i =>
    let desp := i in
    Z.lxor (shl64 b 0x08)
      (Z.land
         (Z.shiftr (Z.shiftr (Z.shiftr (Z.shiftr (Z.shiftr (Z.shiftr
            (Z.shiftr (Z.shiftr a desp) desp) desp) desp) desp) desp) desp) desp)
         0xff))
  (upto 0x08) 0x0.

(** A C string is the list of the character codes before its NUL. *)

(** [byte hayNL(cad a)]: [t = strlen(a)] is stored in a [byte]; the loop
    looks at [a[0]], ..., [a[t-1]] and returns at the first newline. *)
Fixpoint hayNL_loop (a : list Z) (t : nat) : Z :=
  match t, a with
  | Datatypes.S t, c :: a => if c =? 10 then 1 else hayNL_loop a t
  | _, _ => 0
  end.

Definition hayNL (a : list Z) : Z :=
  let t := u8 (Z.of_nat (length a)) in
  hayNL_loop a (Z.to_nat t).

(** [void impBin(tn2 num)]: the characters the function hands to [puts].
    The loop state is [num] and the part of the buffer [a] written so
    far; 91, 32, 44, 93 are the codes of the bracket, blank and comma
    characters. *)
Definition impBin (num : Z) : list Z :=
  let st :=
    fold_left (fun (st : Z * list Z) (i : Z) =>
      let num := fst st in
      let a := snd st in
      (Z.shiftr num 1, a ++ [Z.lor (Z.land num 0x01) 0x30; 44; 32]))
    (upto 63) (num, [91; 32]) in
  snd st ++ [Z.lxor (Z.land (fst st) 0x01) 0x30; 32; 93].

(** [tn2 leeBin(cad a)]: [t = strlen(a)] is stored in a [byte]; the loop
    reads [a[t-1]], ..., [a[0]]; 48 and 49 are the codes of the digits 0
    and 1. *)
Definition leeBin (a : list Z) : Z :=
  let t := u8 (Z.of_nat (length a)) in
  fold_left (fun num c =>
    if (c =? 48) || (c =? 49)
    then let num := shl32 num 1 in
         u32 (Z.lor num (Z.lxor c 0x30))
    else num)
  (rev (firstn (Z.to_nat t) a)) 0.

(** The text [impBin] writes for the [n] low bits of [num]. *)
Fixpoint bit_text (num : Z) (n : nat) : list Z :=
  match n with
  | O => []
  | Datatypes.S n =>
      [Z.lor (Z.land num 0x01) 0x30; 44; 32] ++ bit_text (Z.shiftr num 1) n
  end.

(** One pass of the loop of [leeBin]. *)
Definition leeBin_step (c num : Z) : Z :=
  if (c =? 48) || (c =? 49)
  then u32 (Z.lor (shl32 num 1) (Z.lxor c 0x30))
  else num.

(** ** app/cifrador.c *)

(** [main] once it has read the key and the nonce: it calls [COFB], then
    [dCOFB] with the tag [COFB] returned.  [ts] and [ts'] are what the
    passes of the two calls read.  The static variables are those of a
    process that has just started, and the second call finds them as the
    first one left them.  The result holds what the lines C:, T:, M: and
    T_: show. *)
Definition main (U U' : stack) (K : key) (N : Z) (ts ts' : list token)
  : option ((list Z * Z) * (list Z * Z)) :=
  match COFB_run U K N fresh ts with
  | None => None
  | Some d =>
      let T := Y d in
      match dCOFB_run U' K N T (field d) ts' with
      | None => None
      | Some d' => Some (observe d, observe d')
      end
  end.

(** A driver state whose tag and printed blocks are 64-bit values. *)
Definition in_width (d : driver) : Prop :=
  is_bloque (Y d) /\ Forall is_bloque (printed d).

(** * Properties *)

Example obtNibble_ex0 : obtNibble 0x0123456789ABCDEF 0 = 0x0.
Proof. reflexivity. Qed.
Example obtNibble_ex15 : obtNibble 0x0123456789ABCDEF 15 = 0xf.
Proof. reflexivity. Qed.
Example asgNibble_ex : asgNibble 0x0123456789ABCDEF 3 0xa = 0x012a456789ABCDEF.
Proof. reflexivity. Qed.

(** ** Bit-level toolkit *)

Section Bits.

Lemma testbit_shiftl (a k i : Z) :
  Z.testbit (Z.shiftl a k) i = (0 <=? i) && Z.testbit a (i - k).
Proof.
  destruct (Z.leb_spec 0 i) as [Hi|Hi]; cbn [andb].
  - now apply Z.shiftl_spec.
  - now apply Z.testbit_neg_r.
Qed.

Lemma testbit_shiftr (a k i : Z) :
  Z.testbit (Z.shiftr a k) i = (0 <=? i) && Z.testbit a (i + k).
Proof.
  destruct (Z.leb_spec 0 i) as [Hi|Hi]; cbn [andb].
  - now apply Z.shiftr_spec.
  - now apply Z.testbit_neg_r.
Qed.

Lemma testbit_u8 (a i : Z) : Z.testbit (u8 a) i = (i <? 8) && Z.testbit a i.
Proof. unfold u8. apply Z.testbit_mod_pow2. lia. Qed.

Lemma testbit_u32 (a i : Z) : Z.testbit (u32 a) i = (i <? 32) && Z.testbit a i.
Proof. unfold u32. apply Z.testbit_mod_pow2. lia. Qed.

Lemma testbit_u64 (a i : Z) : Z.testbit (u64 a) i = (i <? 64) && Z.testbit a i.
Proof. unfold u64. apply Z.testbit_mod_pow2. lia. Qed.

Lemma testbit_above (w a i : Z) :
  0 <= w -> 0 <= a < 2 ^ w -> w <= i -> Z.testbit a i = false.
Proof.
  intros Hw Ha Hi. rewrite <- (Z.mod_small a (2 ^ w)) by assumption.
  apply Z.mod_pow2_bits_high. lia.
Qed.

Lemma testbit_nibble (v i : Z) : is_nibble v -> 4 <= i -> Z.testbit v i = false.
Proof. intros Hv Hi. apply (testbit_above 4); trivial; lia. Qed.

Lemma testbit_bloque (v i : Z) : is_bloque v -> 64 <= i -> Z.testbit v i = false.
Proof. intros Hv Hi. apply (testbit_above 64); trivial; lia. Qed.

(** A non-negative number all of whose bits from [w] on are clear is below
    [2^w]. *)
Lemma below_pow2 (w a : Z) :
  0 <= w -> 0 <= a -> (forall i, w <= i -> Z.testbit a i = false) -> a < 2 ^ w.
Proof.
  intros Hw Ha Hbits.
  destruct (Z.eq_dec a 0) as [->|Hnz]; [apply Z.pow_pos_nonneg; lia|].
  apply Z.log2_lt_pow2; [lia|].
  destruct (Z.lt_ge_cases (Z.log2 a) w) as [|Hge]; trivial.
  pose proof (Z.bit_log2 a ltac:(lia)) as Hb.
  rewrite Hbits in Hb by trivial. discriminate.
Qed.

End Bits.

(** Split every integer comparison of the goal and simplify the booleans. *)
Ltac split_cmp :=
  repeat match goal with
  | |- context [?a <=? ?b] => destruct (Z.leb_spec a b)
  | |- context [?a <? ?b] => destruct (Z.ltb_spec a b)
  | |- context [?a =? ?b] => destruct (Z.eqb_spec a b)
  end;
  cbn [andb orb negb xorb]; try lia; try reflexivity.

Ltac split_bits :=
  split_cmp;
  rewrite ?andb_true_r, ?andb_false_r, ?orb_false_r, ?orb_true_r,
          ?xorb_false_r, ?xorb_false_l;
  try reflexivity.

(** Push [Z.testbit] through the shifts, masks and truncations. *)
Ltac push_testbit :=
  repeat first
    [ rewrite Z.lxor_spec | rewrite Z.land_spec | rewrite Z.lor_spec
    | rewrite testbit_shiftl | rewrite testbit_shiftr
    | rewrite testbit_u8 | rewrite testbit_u32 | rewrite testbit_u64
    | rewrite Z.testbit_ones by lia
    | rewrite Z.testbit_0_l ].

(** Equalities between xor combinations of the same operands. *)
Ltac xor_ac :=
  apply Z.bits_inj'; intros ?k ?Hk; rewrite !Z.lxor_spec;
  repeat match goal with
         | |- context [Z.testbit ?x ?k] => destruct (Z.testbit x k)
         end;
  reflexivity.

(** ** Nibble primitives *)

Section Nibbles.

Lemma des_eq (p : Z) :
  0 <= p < 16 -> u8 (Z.shiftl (nxn - p - 1) 1) = 2 * (15 - p).
Proof.
  intros Hp. unfold u8, nxn. rewrite Z.shiftl_mul_pow2 by lia.
  change (2 ^ 1) with 2. rewrite Z.mod_small; lia.
Qed.

Lemma obtNibble_bits (S p j : Z) :
  0 <= p < 16 ->
  Z.testbit (obtNibble S p) j = (0 <=? j) && (j <? 4) && Z.testbit S (j + off p).
Proof.
  intros Hp. unfold obtNibble.
  change 0xf with (Z.ones 4). rewrite des_eq by trivial. unfold off.
  push_testbit. split_cmp. rewrite andb_true_r. f_equal. lia.
Qed.

Lemma asgNibble_bits (S p v i : Z) :
  0 <= p < 16 -> is_nibble v -> 0 <= i ->
  Z.testbit (asgNibble S p v) i =
  if (off p <=? i) && (i <? off p + 4) then Z.testbit v (i - off p)
  else Z.testbit S i.
Proof.
  intros Hp Hv Hi. unfold asgNibble, shl64.
  change 0x000000000000000f with (Z.ones 4). rewrite des_eq by trivial.
  unfold off. push_testbit.
  replace (i - 2 * (15 - p) - 2 * (15 - p)) with (i - 4 * (15 - p)) by lia.
  split_cmp;
    try rewrite (testbit_nibble v (i - 4 * (15 - p))) by (trivial; lia);
    try rewrite (Z.testbit_neg_r v (i - 4 * (15 - p))) by lia;
    destruct (Z.testbit S i); try destruct (Z.testbit v _); reflexivity.
Qed.

Lemma off_range (p : Z) : 0 <= p < 16 -> 0 <= off p <= 60.
Proof. unfold off. lia. Qed.

Lemma obtNibble_range (S p : Z) : is_nibble (obtNibble S p).
Proof.
  unfold obtNibble, is_nibble, u8. change 0xf with (Z.ones 4).
  rewrite Z.land_ones by lia.
  pose proof (Z.mod_pos_bound (Z.shiftr (Z.shiftr S (Z.shiftl (nxn - p - 1) 1 mod 2 ^ 8))
                 (Z.shiftl (nxn - p - 1) 1 mod 2 ^ 8)) (2 ^ 4) ltac:(lia)) as Hb.
  change (2 ^ 4) with 16 in *. rewrite Z.mod_small; lia.
Qed.

Lemma obtNibble_asgNibble_same (S p v : Z) :
  0 <= p < 16 -> is_nibble v -> obtNibble (asgNibble S p v) p = v.
Proof.
  intros Hp Hv. apply Z.bits_inj'. intros j Hj.
  rewrite obtNibble_bits by trivial.
  pose proof (off_range p Hp) as Ho.
  rewrite asgNibble_bits by (trivial; lia).
  replace (j + off p - off p) with j by lia.
  split_cmp. symmetry. now apply testbit_nibble.
Qed.

Lemma obtNibble_asgNibble_other (S p q v : Z) :
  0 <= p < 16 -> 0 <= q < 16 -> q <> p -> is_nibble v ->
  obtNibble (asgNibble S p v) q = obtNibble S q.
Proof.
  intros Hp Hq Hne Hv. apply Z.bits_inj'. intros j Hj.
  rewrite !obtNibble_bits by trivial.
  pose proof (off_range q Hq) as Ho.
  destruct (Z.ltb_spec j 4) as [Hlt|Hge];
    [|now replace (0 <=? j) with true by (symmetry; apply Z.leb_le; lia)].
  rewrite asgNibble_bits by (trivial; lia).
  unfold off in *. split_cmp.
Qed.

Lemma asgNibble_obtNibble (S p : Z) :
  0 <= p < 16 -> asgNibble S p (obtNibble S p) = S.
Proof.
  intros Hp. apply Z.bits_inj'. intros i Hi.
  rewrite asgNibble_bits by (trivial; apply obtNibble_range).
  rewrite obtNibble_bits by trivial.
  replace (i - off p + off p) with i by lia.
  split_cmp.
Qed.

Lemma asgNibble_range (S p v : Z) :
  0 <= p < 16 -> is_nibble v -> is_bloque S -> is_bloque (asgNibble S p v).
Proof.
  intros Hp Hv HS. split.
  - unfold asgNibble, shl64, u64.
    apply Z.lxor_nonneg. split; intros _; [apply HS|].
    apply Z.lxor_nonneg. split; intros _.
    + apply Z.land_nonneg. right. apply HS.
    + apply Z.mod_pos_bound. lia.
  - apply below_pow2; [lia| |].
    + unfold asgNibble, shl64, u64.
      apply Z.lxor_nonneg. split; intros _; [apply HS|].
      apply Z.lxor_nonneg. split; intros _.
      * apply Z.land_nonneg. right. apply HS.
      * apply Z.mod_pos_bound. lia.
    + intros i Hi. rewrite asgNibble_bits by (trivial; lia).
      pose proof (off_range p Hp). split_cmp. now apply testbit_bloque.
Qed.

(** Two blocks with the same sixteen nibbles are equal. *)
Lemma nibble_ext (A B : Z) :
  is_bloque A -> is_bloque B ->
  (forall p, 0 <= p < 16 -> obtNibble A p = obtNibble B p) -> A = B.
Proof.
  intros HA HB Hnib. apply Z.bits_inj'. intros i Hi.
  destruct (Z.lt_ge_cases i 64) as [Hlt|Hge].
  - assert (Hp : 0 <= 15 - i / 4 < 16).
    { assert (0 <= i / 4 < 16) by (split; [apply Z.div_pos|apply Z.div_lt_upper_bound]; lia).
      lia. }
    pose proof (f_equal (fun x => Z.testbit x (i mod 4)) (Hnib _ Hp)) as Hb.
    cbv beta in Hb. rewrite !obtNibble_bits in Hb by trivial.
    pose proof (Z.mod_pos_bound i 4 ltac:(lia)) as Hm.
    replace (i mod 4 + off (15 - i / 4)) with i in Hb
      by (unfold off; pose proof (Z.div_mod i 4 ltac:(lia)); lia).
    revert Hb. split_cmp. trivial.
  - rewrite !testbit_bloque; trivial.
Qed.

End Nibbles.

(** ** Loops that write a block nibble by nibble *)

Section Fill.

Variable f : Z -> Z.
Hypothesis f_nibble : forall i, is_nibble (f i).

Lemma fill_range (l : list Z) :
  forall X, Forall (fun i => 0 <= i < 16) l -> is_bloque X ->
            is_bloque (fill f l X).
Proof.
  induction l as [|a l IH]; intros X Hl HX; cbn; trivial.
  inversion Hl as [|? ? Ha Hl']; subst.
  apply IH; trivial. now apply asgNibble_range.
Qed.

Lemma fill_obtNibble (l : list Z) :
  forall X q, Forall (fun i => 0 <= i < 16) l -> 0 <= q < 16 ->
    obtNibble (fill f l X) q = if mem q l then f q else obtNibble X q.
Proof.
  induction l as [|a l IH]; intros X q Hl Hq; cbn; trivial.
  inversion Hl as [|? ? Ha Hl']; subst.
  fold (fill f l (asgNibble X a (f a))). rewrite IH by trivial.
  fold (mem q l). destruct (mem q l); [now rewrite orb_true_r|].
  rewrite orb_false_r. destruct (Z.eqb_spec q a) as [->|Hne].
  - now apply obtNibble_asgNibble_same.
  - now apply obtNibble_asgNibble_other.
Qed.

End Fill.

Lemma upto_range (k : Z) : Forall (fun i => 0 <= i < k) (upto k).
Proof.
  unfold upto. apply Forall_forall. intros i Hi.
  apply in_map_iff in Hi. destruct Hi as (m & <- & Hm).
  apply in_seq in Hm. lia.
Qed.

Lemma mem_upto (k q : Z) : 0 <= q < k -> mem q (upto k) = true.
Proof.
  intros Hq. unfold mem. apply existsb_exists. exists q. split.
  - unfold upto. apply in_map_iff. exists (Z.to_nat q). split; [lia|].
    apply in_seq. lia.
  - apply Z.eqb_refl.
Qed.

(** Writing all sixteen nibbles erases the content the block had before. *)
Lemma fill_all (f : Z -> Z) (X X' : Z) :
  (forall i, is_nibble (f i)) -> is_bloque X -> is_bloque X' ->
  fill f (upto 16) X = fill f (upto 16) X'.
Proof.
  intros Hf HX HX'.
  apply nibble_ext; try (apply fill_range; trivial; apply upto_range).
  intros q Hq. rewrite !fill_obtNibble by (trivial; apply upto_range).
  now rewrite mem_upto.
Qed.

(** ** The specification's view of a block *)

Section SpecBlocks.

Lemma nib_obtNibble (S p : Z) : 0 <= p < 16 -> Spec.nib S p = obtNibble S p.
Proof.
  intros Hp. apply Z.bits_inj'. intros j Hj.
  rewrite obtNibble_bits by trivial. unfold Spec.nib, off.
  change 0xF with (Z.ones 4). push_testbit. split_cmp.
  now rewrite andb_true_r.
Qed.

Lemma nib_range (S p : Z) : is_nibble (Spec.nib S p).
Proof.
  unfold Spec.nib, is_nibble. change 0xF with (Z.ones 4).
  rewrite Z.land_ones by lia. change (2 ^ 4) with 16.
  apply Z.mod_pos_bound. lia.
Qed.

Lemma obtNibble_lor (A B q : Z) :
  0 <= q < 16 -> obtNibble (Z.lor A B) q = Z.lor (obtNibble A q) (obtNibble B q).
Proof.
  intros Hq. apply Z.bits_inj'. intros j Hj.
  rewrite Z.lor_spec, !obtNibble_bits, Z.lor_spec by trivial.
  split_cmp.
Qed.

Lemma obtNibble_0 (q : Z) : obtNibble 0 q = 0.
Proof.
  unfold obtNibble. now rewrite !Z.shiftr_0_l.
Qed.

Lemma obtNibble_shiftl (v a q : Z) :
  is_nibble v -> 0 <= a < 16 -> 0 <= q < 16 ->
  obtNibble (Z.shiftl v (60 - 4 * a)) q = if q =? a then v else 0.
Proof.
  intros Hv Ha Hq. apply Z.bits_inj'. intros j Hj.
  rewrite obtNibble_bits by trivial. unfold off. push_testbit.
  destruct (Z.eqb_spec q a) as [->|Hne].
  - replace (j + 4 * (15 - a) - (60 - 4 * a)) with j by lia.
    split_cmp. symmetry. now apply testbit_nibble.
  - rewrite Z.testbit_0_l. split_cmp.
    destruct (Z.lt_ge_cases q a).
    + apply testbit_nibble; trivial. lia.
    + apply Z.testbit_neg_r. lia.
Qed.

Variable f : Z -> Z.
Hypothesis f_nibble : forall i, is_nibble (f i).

Lemma pack_on_obtNibble (l : list Z) (q : Z) :
  Forall (fun i => 0 <= i < 16) l -> 0 <= q < 16 ->
  obtNibble (pack_on f l) q = if mem q l then f q else 0.
Proof.
  intros Hl Hq. induction l as [|a l IH]; unfold pack_on; cbn [fold_right].
  - apply obtNibble_0.
  - inversion Hl as [|? ? Ha Hl']; subst.
    fold (pack_on f l). rewrite obtNibble_lor, obtNibble_shiftl, IH by trivial.
    unfold mem; cbn [existsb]; fold (mem q l).
    destruct (Z.eqb_spec q a) as [->|Hne]; cbn [orb].
    + destruct (mem a l); [apply Z.lor_diag|apply Z.lor_0_r].
    + apply Z.lor_0_l.
Qed.

Lemma pack_on_range (l : list Z) :
  Forall (fun i => 0 <= i < 16) l -> is_bloque (pack_on f l).
Proof.
  intros Hl. induction l as [|a l IH]; unfold pack_on; cbn [fold_right];
    [unfold is_bloque; lia|].
  inversion Hl as [|? ? Ha Hl']; subst. fold (pack_on f l).
  specialize (IH Hl'). pose proof (f_nibble a) as Hv.
  assert (H0 : 0 <= Z.lor (Z.shiftl (f a) (60 - 4 * a)) (pack_on f l)).
  { apply Z.lor_nonneg. split; [apply Z.shiftl_nonneg; apply Hv|apply IH]. }
  split; trivial. apply below_pow2; trivial; [lia|].
  intros i Hi. push_testbit. rewrite (testbit_bloque _ _ IH Hi), orb_false_r.
  rewrite testbit_nibble by (trivial; lia). split_cmp.
Qed.

Lemma pack_obtNibble (q : Z) : 0 <= q < 16 -> obtNibble (Spec.pack f) q = f q.
Proof.
  intros Hq. change (Spec.pack f) with (pack_on f (upto 16)).
  rewrite pack_on_obtNibble by (trivial; apply upto_range).
  now rewrite mem_upto.
Qed.

Lemma pack_range : is_bloque (Spec.pack f).
Proof. apply pack_on_range, upto_range. Qed.

(** A full nibble-by-nibble write from any previous content is [pack]. *)
Lemma fill_pack (X : Z) : is_bloque X -> fill f (upto 16) X = Spec.pack f.
Proof.
  intros HX. apply nibble_ext.
  - apply fill_range; trivial. apply upto_range.
  - apply pack_range.
  - intros q Hq. rewrite fill_obtNibble, pack_obtNibble, mem_upto; trivial.
    apply upto_range.
Qed.

End SpecBlocks.

(** ** The round primitives compute what the specification says *)

Section Primitives.

Lemma fill_ext (f g : Z -> Z) (l : list Z) :
  forall X, Forall (fun i => f i = g i) l -> fill f l X = fill g l X.
Proof.
  induction l as [|a l IH]; intros X Hl; cbn; trivial.
  inversion Hl as [|? ? Ha Hl']; subst. rewrite Ha. now apply IH.
Qed.

Lemma fill_is_pack (f g : Z -> Z) (X : Z) :
  (forall i, is_nibble (g i)) -> (forall i, 0 <= i < 16 -> f i = g i) ->
  is_bloque X -> fill f (upto 16) X = Spec.pack g.
Proof.
  intros Hg Hfg HX. rewrite (fill_ext f g).
  - now apply fill_pack.
  - eapply Forall_impl; [|apply upto_range]. exact Hfg.
Qed.

Lemma lxor_nibble (a b : Z) : is_nibble a -> is_nibble b -> is_nibble (Z.lxor a b).
Proof.
  intros Ha Hb.
  assert (H0 : 0 <= Z.lxor a b) by (apply Z.lxor_nonneg; unfold is_nibble in *; lia).
  split; trivial. change 16 with (2 ^ 4). apply below_pow2; trivial; [lia|].
  intros i Hi. now rewrite Z.lxor_spec, !testbit_nibble.
Qed.

Lemma u8_nibble (a : Z) : is_nibble a -> u8 a = a.
Proof. intros Ha. unfold u8. apply Z.mod_small. unfold is_nibble in Ha. lia. Qed.

Lemma subCell_spec (SC S : Z) : is_bloque SC -> subCell SC S = Spec.SubCell S.
Proof.
  intros HSC. unfold subCell, Spec.SubCell.
  change (fill (fun i => obtNibble Sb0 (obtNibble S i)) (upto 16) SC = 
          Spec.pack (fun p => Spec.nib Sb0 (Spec.nib S p))).
  apply fill_is_pack; trivial.
  - intros i. apply nib_range.
  - intros i Hi. rewrite (nib_obtNibble S) by trivial.
    rewrite nib_obtNibble; trivial. apply obtNibble_range.
Qed.

Lemma shuffleCell_spec (SH S inv : Z) :
  is_bloque SH ->
  shuffleCell SH S inv = Spec.ShuffleCell S (negb (inv =? 0)).
Proof.
  intros HSH. unfold shuffleCell, Spec.ShuffleCell.
  set (T := if inv =? 0 then shuffleP else shufflePInv).
  replace (if negb (inv =? 0) then shufflePInv else shuffleP) with T
    by (subst T; now destruct (inv =? 0)).
  change (fill (fun i => obtNibble S (obtNibble T i)) (upto 16) SH = 
          Spec.pack (fun p => Spec.nib S (Spec.nib T p))).
  apply fill_is_pack; trivial.
  - intros i. apply nib_range.
  - intros i Hi. rewrite (nib_obtNibble T) by trivial.
    rewrite nib_obtNibble; trivial. apply obtNibble_range.
Qed.

Lemma mixColumn_fill (MC S : Z) :
  mixColumn MC S =
  fill (fun q => u8 (Z.lxor (column_tmp S (4 * (q / 4))) (obtNibble S q)))
       (upto 16) MC.
Proof. reflexivity. Qed.

Lemma mixColumn_spec (MC S : Z) : is_bloque MC -> mixColumn MC S = Spec.MixColumn S.
Proof.
  intros HMC. rewrite mixColumn_fill. unfold Spec.MixColumn.
  apply fill_is_pack; trivial.
  - intros i. repeat apply lxor_nibble; apply nib_range.
  - intros i Hi.
    assert (Hc : 0 <= 4 * (i / 4) <= 12).
    { assert (0 <= i / 4 < 4) by (split; [apply Z.div_pos|apply Z.div_lt_upper_bound]; lia).
      lia. }
    rewrite !nib_obtNibble by lia.
    unfold column_tmp. change (rev (upto n)) with [3; 2; 1; 0].
    cbn [fold_left]. rewrite Z.lxor_0_l, Z.add_0_r.
    rewrite u8_nibble by (repeat apply lxor_nibble; apply obtNibble_range).
    xor_ac.
Qed.

End Primitives.

(** ** Key schedule and cipher driver *)

Section Cipher.

Lemma keyGen_row (g : Z -> Z) (i : Z) (l : list Z) :
  forall RK k,
    fold_left (fun RK j => store RK i (asgNibble (RK i) j (g j))) l RK k =
    if k =? i then fill g l (RK i) else RK k.
Proof.
  induction l as [|a l IH]; intros RK k; cbn [fold_left fill].
  - now destruct (k =? i) eqn:E; [apply Z.eqb_eq in E; subst|].
  - rewrite IH. unfold store. rewrite Z.eqb_refl.
    now destruct (k =? i).
Qed.

Lemma keyGen_rows (g : Z -> Z -> Z) (rows l : list Z) :
  NoDup rows ->
  forall RK k,
    fold_left (fun RK i =>
      fold_left (fun RK j => store RK i (asgNibble (RK i) j (g i j))) l RK)
      rows RK k =
    if mem k rows then fill (g k) l (RK k) else RK k.
Proof.
  induction rows as [|a rows IH]; intros Hnd RK k; cbn [fold_left]; trivial.
  inversion Hnd as [|? ? Hnotin Hnd']; subst.
  rewrite IH by trivial. rewrite !(keyGen_row (g a) a).
  unfold mem; cbn [existsb]; fold (mem k rows).
  destruct (Z.eqb_spec k a) as [->|Hne]; cbn [orb]; trivial.
  replace (mem a rows) with false; trivial.
  symmetry. apply not_true_is_false. intros Hm. apply Hnotin.
  apply existsb_exists in Hm. destruct Hm as (x & Hx & Heq).
  apply Z.eqb_eq in Heq. now subst.
Qed.

Lemma NoDup_upto (k : Z) : NoDup (upto k).
Proof.
  unfold upto. apply Injective_map_NoDup; [|apply seq_NoDup].
  intros a b Hab. lia.
Qed.

Lemma keyGen_WK (RK : Z -> Z) (Ki : key) :
  fst (keyGen RK Ki) = Spec.WK (fst Ki) (snd Ki).
Proof. reflexivity. Qed.

Lemma land_1_range (a : Z) : 0 <= Z.land a 1 < 2.
Proof.
  change (Z.land a 1) with (Z.land a (Z.ones 1)). rewrite Z.land_ones by lia.
  apply Z.mod_pos_bound. lia.
Qed.

Lemma key_nibble_spec (Ki : key) (i j : Z) :
  0 <= j < 16 ->
  key_nibble Ki i j =
  Z.lxor (Spec.nib (if i mod 2 =? 0 then fst Ki else snd Ki) j)
         (Z.land (Z.shiftr (beta_at i) (15 - j)) 1).
Proof.
  intros Hj. unfold key_nibble, Ki_at, nxn.
  change (Z.land i 0x1) with (Z.land i (Z.ones 1)).
  rewrite Z.land_ones by lia. change (2 ^ 1) with 2.
  replace (0x10 - j - 1) with (15 - j) by lia.
  pose proof (land_1_range (Z.shiftr (beta_at i) (15 - j))) as Hb.
  rewrite (u8_nibble (Z.land _ 0x1)) by (unfold is_nibble; lia).
  rewrite nib_obtNibble by trivial.
  apply u8_nibble. apply lxor_nibble; [apply obtNibble_range|].
  unfold is_nibble; lia.
Qed.

Lemma keyGen_RK (RK : Z -> Z) (Ki : key) (i : Z) :
  0 <= i < 15 -> is_bloque (RK i) ->
  snd (keyGen RK Ki) i = Spec.RK (fst Ki) (snd Ki) i.
Proof.
  intros Hi HRK. unfold keyGen. cbn [snd].
  change (fold_left (fun RK i =>
            fold_left (fun RK j => store RK i (asgNibble (RK i) j (key_nibble Ki i j)))
                      (upto 16) RK) (upto 15) RK i = Spec.RK (fst Ki) (snd Ki) i).
  rewrite (keyGen_rows (key_nibble Ki)) by apply NoDup_upto.
  rewrite mem_upto by trivial. unfold Spec.RK.
  apply fill_is_pack; trivial.
  - intros j. apply lxor_nibble; [apply nib_range|].
    pose proof (land_1_range (Z.shiftr (beta_at i) (15 - j))).
    unfold is_nibble; lia.
  - intros j Hj. now apply key_nibble_spec.
Qed.

Lemma fold_left_ext_in {A B : Type} (f g : A -> B -> A) (l : list B) :
  (forall a b, In b l -> f a b = g a b) ->
  forall a, fold_left f l a = fold_left g l a.
Proof.
  induction l as [|b l IH]; intros Hfg a; cbn; trivial.
  rewrite Hfg by now left. apply IH. intros a' b' Hb'. apply Hfg. now right.
Qed.

(** The code computes the cipher of the specification, whatever the
    uninitialised variables contain. *)
Lemma midori_refines (U : stack) (S : Z) (Ki : key) :
  stack_ok U -> midori U S Ki 0 = Spec.midori S (fst Ki) (snd Ki).
Proof.
  intros HU. unfold midori.
  rewrite (surjective_pairing (keyGen (uRK U) Ki)), keyGen_WK.
  unfold Spec.midori, keyAdd, Spec.KeyAdd.
  rewrite subCell_spec by apply HU.
  do 2 f_equal. change (r - 2 + 1) with 15.
  apply fold_left_ext_in. intros X i Hi.
  assert (Hr : 0 <= i < 15).
  { pose proof (upto_range 15) as Hall. rewrite Forall_forall in Hall. now apply Hall. }
  cbn [Z.eqb]. unfold Spec.round, Spec.KeyAdd.
  rewrite keyGen_RK by (trivial; apply HU).
  rewrite subCell_spec, shuffleCell_spec, mixColumn_spec by apply HU.
  reflexivity.
Qed.

(** In particular the result does not depend on those contents. *)
Lemma midori_stack (U U' : stack) (S : Z) (Ki : key) :
  stack_ok U -> stack_ok U' -> midori U S Ki 0 = midori U' S Ki 0.
Proof. intros HU HU'. now rewrite !midori_refines. Qed.

End Cipher.

(** ** Field kernel and feedback *)

Section Feedback.

Lemma mulGY_bits (Y i : Z) :
  is_bloque Y -> 0 <= i ->
  Z.testbit (mulGY Y) i =
  if i <? 16 then xorb (Z.testbit Y (i + 48)) (Z.testbit Y i)
  else (i <? 64) && Z.testbit Y (i - 16).
Proof.
  intros HY Hi. unfold mulGY, shl64.
  change 0xffffffffffffffff with (Z.ones 64). change 0xffff with (Z.ones 16).
  push_testbit. replace (i + 32 + 16) with (i + 48) by lia.
  split_bits.
  - now rewrite (Z.testbit_neg_r Y (i - 16)) by lia.
  - rewrite (testbit_bloque Y (i + 48)) by (trivial; lia). apply orb_false_r.
  - apply testbit_bloque; trivial; lia.
Qed.

Lemma mulGY_nonneg (Y : Z) : 0 <= Y -> 0 <= mulGY Y.
Proof.
  intros HY. unfold mulGY, shl64, u64. apply Z.lor_nonneg. split.
  - apply Z.land_nonneg. now right.
  - apply Z.lxor_nonneg. split; intros _.
    + apply Z.land_nonneg. now right.
    + now rewrite !Z.shiftr_nonneg.
Qed.

Lemma mulGY_range (Y : Z) : is_bloque Y -> is_bloque (mulGY Y).
Proof.
  intros HY. split; [apply mulGY_nonneg, HY|].
  apply below_pow2; [lia|apply mulGY_nonneg, HY|].
  intros i Hi. rewrite mulGY_bits by (trivial; lia). split_bits.
Qed.

Lemma mulGY_injective (Y Y' : Z) :
  is_bloque Y -> is_bloque Y' -> mulGY Y = mulGY Y' -> Y = Y'.
Proof.
  intros HY HY' Heq.
  assert (Hlow : forall i, 0 <= i < 48 -> Z.testbit Y i = Z.testbit Y' i).
  { intros i Hi.
    pose proof (f_equal (fun x => Z.testbit x (i + 16)) Heq) as Hb.
    cbv beta in Hb. rewrite !mulGY_bits in Hb by (trivial; lia).
    replace (i + 16 - 16) with i in Hb by lia.
    revert Hb. split_bits. trivial. }
  apply Z.bits_inj'. intros i Hi.
  destruct (Z.lt_ge_cases i 48) as [H48|H48]; [apply Hlow; lia|].
  destruct (Z.lt_ge_cases i 64) as [H64|H64].
  - pose proof (f_equal (fun x => Z.testbit x (i - 48)) Heq) as Hb.
    cbv beta in Hb. rewrite !mulGY_bits in Hb by (trivial; lia).
    replace (i - 48 + 48) with i in Hb by lia.
    rewrite (Hlow (i - 48)) in Hb by lia.
    revert Hb. split_bits.
    destruct (Z.testbit Y i), (Z.testbit Y' i), (Z.testbit Y' (i - 48));
      intros; trivial; discriminate.
  - now rewrite !testbit_bloque.
Qed.

Lemma mulGY_inv_bits (G i : Z) :
  is_bloque G -> 0 <= i ->
  Z.testbit (mulGY_inv G) i =
  if i <? 48 then Z.testbit G (i + 16)
  else (i <? 64) && xorb (Z.testbit G (i - 48)) (Z.testbit G (i - 32)).
Proof.
  intros HG Hi. unfold mulGY_inv. change 0xffff with (Z.ones 16).
  push_testbit.
  replace (i - 48 + 16) with (i - 32) by lia.
  replace (i - 16 + 32) with (i + 16) by lia.
  split_bits;
    rewrite ?(Z.testbit_neg_r G (i - 48)), ?(Z.testbit_neg_r G (i - 32)),
            ?(testbit_bloque G (i + 16)) by (trivial; lia);
    rewrite ?andb_false_r, ?orb_false_r, ?xorb_false_r, ?xorb_false_l;
    try reflexivity.
Qed.

Lemma mulGY_inv_nonneg (G : Z) : 0 <= G -> 0 <= mulGY_inv G.
Proof.
  intros HG. unfold mulGY_inv.
  assert (Hc : 0 <= Z.land (Z.shiftr G 16) 0xffff) by (apply Z.land_nonneg; now right).
  assert (Hl : 0 <= Z.land G 0xffff) by (apply Z.land_nonneg; now right).
  repeat (apply Z.lor_nonneg; split); trivial.
  - apply Z.shiftl_nonneg. apply Z.lxor_nonneg. tauto.
  - apply Z.shiftl_nonneg. now apply Z.shiftr_nonneg.
Qed.

Lemma mulGY_inv_range (G : Z) : is_bloque G -> is_bloque (mulGY_inv G).
Proof.
  intros HG. split; [apply mulGY_inv_nonneg, HG|].
  apply below_pow2; [lia|apply mulGY_inv_nonneg, HG|].
  intros i Hi. rewrite mulGY_inv_bits by (trivial; lia). split_bits.
Qed.

Lemma mulGY_mulGY_inv (G : Z) : is_bloque G -> mulGY (mulGY_inv G) = G.
Proof.
  intros HG. apply Z.bits_inj'. intros i Hi.
  rewrite mulGY_bits by (trivial; apply mulGY_inv_range, HG).
  destruct (Z.ltb_spec i 16) as [Hlt|Hge].
  - rewrite !mulGY_inv_bits by (trivial; lia).
    replace (i + 48 - 48) with i by lia. replace (i + 48 - 32) with (i + 16) by lia.
    split_bits. now destruct (Z.testbit G i), (Z.testbit G (i + 16)).
  - destruct (Z.ltb_spec i 64) as [H64|H64]; cbn [andb].
    + rewrite mulGY_inv_bits by (trivial; lia).
      replace (i - 16 + 16) with i by lia. split_bits.
    + symmetry. now apply testbit_bloque.
Qed.


Lemma overwrite_low16_lor (x v : Z) :
  0 <= v < 2 ^ 16 ->
  Spec.overwrite_low16 x v = Z.lor (Z.shiftl (Z.shiftr x 16) 16) v.
Proof.
  intros Hv. unfold Spec.overwrite_low16.
  rewrite Z.shiftl_mul_pow2, Z.shiftr_div_pow2 by lia.
  rewrite (Z.mul_comm (2 ^ 16)).
  assert (Hdisj : Z.land (x / 2 ^ 16 * 2 ^ 16) v = 0).
  { apply Z.bits_inj'. intros i Hi. rewrite Z.land_spec, Z.testbit_0_l.
    destruct (Z.lt_ge_cases i 16).
    - rewrite Z.mul_pow2_bits_low by lia. reflexivity.
    - rewrite (testbit_above 16 v) by lia. apply andb_false_r. }
  rewrite (Z.add_nocarry_lxor _ _ Hdisj). now apply Z.lxor_lor.
Qed.

Lemma overwrite_low16_bits (x v i : Z) :
  0 <= v < 2 ^ 16 -> 0 <= i ->
  Z.testbit (Spec.overwrite_low16 x v) i =
  if i <? 16 then Z.testbit v i else Z.testbit x i.
Proof.
  intros Hv Hi. rewrite overwrite_low16_lor by trivial. push_testbit.
  replace (i - 16 + 16) with i by lia. split_bits.
  rewrite (testbit_above 16 v) by lia. apply orb_false_r.
Qed.

Lemma fold16_range (Y : Z) :
  is_bloque Y -> 0 <= Z.lxor (Z.shiftr Y 48) (Z.land Y 0xFFFF) < 2 ^ 16.
Proof.
  intros HY.
  assert (H0 : 0 <= Z.lxor (Z.shiftr Y 48) (Z.land Y 0xFFFF)).
  { apply Z.lxor_nonneg. split; intros _.
    - apply Z.land_nonneg. left. apply HY.
    - apply Z.shiftr_nonneg, HY. }
  split; trivial. apply below_pow2; trivial; [lia|].
  intros i Hi. change 0xFFFF with (Z.ones 16). push_testbit.
  rewrite (testbit_bloque Y (i + 48)) by (trivial; lia). split_bits.
Qed.

Lemma rotl16_bits (Y i : Z) :
  is_bloque Y -> 0 <= i ->
  Z.testbit (Spec.rotl16 Y) i =
  if i <? 16 then Z.testbit Y (i + 48) else (i <? 64) && Z.testbit Y (i - 16).
Proof.
  intros HY Hi. unfold Spec.rotl16. push_testbit. split_bits.
  - now rewrite (Z.testbit_neg_r Y (i - 16)) by lia.
  - rewrite (testbit_bloque Y (i + 48)) by (trivial; lia). apply orb_false_r.
  - apply testbit_bloque; trivial; lia.
Qed.

(** [gdoble] tests bit 31 of its argument. *)
Lemma land_maxPn (a : Z) : (Z.land a maxPn =? 0) = negb (Z.testbit a 31).
Proof.
  change maxPn with (2 ^ 31).
  destruct (Z.testbit a 31) eqn:E; cbn [negb].
  - apply Z.eqb_neq. intros H0.
    pose proof (f_equal (fun x => Z.testbit x 31) H0) as Hb. cbv beta in Hb.
    rewrite Z.land_spec, E, Z.pow2_bits_true, Z.testbit_0_l in Hb by lia.
    discriminate.
  - apply Z.eqb_eq. apply Z.bits_inj'. intros i Hi.
    rewrite Z.land_spec, Z.testbit_0_l, Z.pow2_bits_eqb by lia.
    destruct (Z.eqb_spec 31 i) as [<-|]; [now rewrite E|apply andb_false_r].
Qed.

Lemma poliN_bits (i : Z) :
  0 <= i -> Z.testbit poliN i = (32 =? i) || Z.testbit 0x1b i.
Proof.
  intros Hi. change poliN with (Z.lor (2 ^ 32) 0x1b).
  now rewrite Z.lor_spec, Z.pow2_bits_eqb by lia.
Qed.

Lemma gdoble_eq (a : Z) :
  gdoble a = if Z.testbit a 31 then u32 (Z.lxor (Z.shiftl a 1) 0x1B)
             else u32 (Z.shiftl a 1).
Proof.
  unfold gdoble. rewrite land_maxPn.
  destruct (Z.testbit a 31); cbn [negb]; apply Z.bits_inj'; intros i Hi;
    unfold shl32; push_testbit.
  - rewrite poliN_bits by trivial. split_bits.
  - split_bits.
Qed.

End Feedback.

(** ** The drivers *)

Section Masks.

Lemma goper_mx2 (f f' : FieldState) (finB alf alf' : Z) :
  mx2 f = mx2 f' ->
  fst (goper f finB alf) = fst (goper f' finB alf') /\
  mx2 (snd (goper f finB alf)) = mx2 (snd (goper f' finB alf')).
Proof.
  intros Hm. unfold goper.
  destruct (finB =? 1); [|destruct (finB =? 2); [|destruct (finB =? 3);
    [|destruct (finB =? 4)]]]; cbn [fst snd mx2 mx2x3 mx2x3x3];
    rewrite ?Hm; auto.
Qed.

Lemma mask_goper (f : FieldState) (beta B finB : Z) :
  mask f beta B finB = goper f finB (u32 beta).
Proof. unfold mask. now destruct (goper f finB (u32 beta)). Qed.

Lemma mask_mx2 (f f' : FieldState) (beta B B' finB : Z) :
  mx2 f = mx2 f' ->
  fst (mask f beta B finB) = fst (mask f' beta B' finB) /\
  mx2 (snd (mask f beta B finB)) = mx2 (snd (mask f' beta B' finB)).
Proof. intros Hm. rewrite !mask_goper. now apply goper_mx2. Qed.

End Masks.

Section Passes.

Variables (U U' : stack) (K : key) (beta : Z).
Hypothesis U_ok : stack_ok U.
Hypothesis U'_ok : stack_ok U'.

Lemma COFB_pass_eq (t : token) (d : driver) :
  COFB_pass U K beta t d =
  let x := boundary (tok_eol t) (exp d) in
  let mf := mask (field d) beta (tok_B t) x in
  mkDriver (advance x) (boundary (tok_eol t) (aom d))
    (midori U (Z.lxor (shl64 (fst mf) 32) (Z.lxor (tok_B t) (mulGY (Y d)))) K 0)
    (snd mf)
    (if 2 <? x then printed d ++ [Z.lxor (Y d) (tok_B t)] else printed d).
Proof.
  unfold COFB_pass. cbv zeta.
  now destruct (mask (field d) beta (tok_B t) (boundary (tok_eol t) (exp d))).
Qed.

Lemma dCOFB_pass_eq (t : token) (d : driver) :
  dCOFB_pass U' K beta t d =
  let x := boundary (tok_eol t) (exp d) in
  let mf := mask (field d) beta (tok_B t) x in
  let BGY := Z.lxor (tok_B t) (mulGY (Y d)) in
  mkDriver (advance x) (boundary (tok_eol t) (aom d))
    (midori U' (Z.lxor (shl64 (fst mf) 32)
                       (if 2 <? x then Z.lxor (Y d) BGY else BGY)) K 0)
    (snd mf)
    (if 2 <? x then printed d ++ [Z.lxor (Y d) (tok_B t)] else printed d).
Proof.
  unfold dCOFB_pass. cbv zeta.
  now destruct (mask (field d) beta (tok_B t) (boundary (tok_eol t) (exp d))).
Qed.

(** One pass of the encrypt loop on [b] and one pass of the decrypt loop on
    the block the encrypt loop prints for [b] (on [b] itself when nothing is
    printed) keep the two drivers in step. *)
Lemma enc_dec_pass (d d' : driver) (b : Z) (eol : bool) :
  sync d d' ->
  let x := boundary eol (exp d) in
  let b' := if 2 <? x then Z.lxor (Y d) b else b in
  let e := COFB_pass U K beta (mkToken b eol) d in
  let e' := dCOFB_pass U' K beta (mkToken b' eol) d' in
  sync e e' /\ exp e = advance x /\
  printed e = (if 2 <? x then printed d ++ [b'] else printed d) /\
  printed e' = (if 2 <? x then printed d' ++ [b] else printed d').
Proof.
  intros (He & Hy & Hm). cbv zeta.
  rewrite COFB_pass_eq, dCOFB_pass_eq. cbv zeta.
  cbn [tok_B tok_eol exp Y field printed]. rewrite <- He, <- Hy.
  set (x := boundary eol (exp d)).
  set (b' := if 2 <? x then Z.lxor (Y d) b else b).
  destruct (mask_mx2 (field d) (field d') beta b b' x Hm) as (Hmsk & Hmx).
  unfold sync. cbn [exp Y field printed]. rewrite <- Hmsk.
  refine (conj (conj eq_refl (conj _ Hmx)) (conj eq_refl (conj _ _))).
  - rewrite (midori_stack U U') by assumption. do 3 f_equal.
    subst b'. destruct (2 <? x); [xor_ac|reflexivity].
  - subst b'. now destruct (2 <? x).
  - subst b'. destruct (2 <? x); [|reflexivity]. do 2 f_equal. xor_ac.
Qed.

End Passes.

Section Loop.

Lemma drive_cons (pass : token -> driver -> driver) (t : token)
  (ts : list token) (d : driver) :
  exp d < 4 -> drive pass (t :: ts) d = drive pass ts (pass t d).
Proof. intros Hlt. cbn [drive]. now rewrite (proj2 (Z.ltb_lt _ _) Hlt). Qed.

Lemma drive_done (pass : token -> driver -> driver) (ts : list token)
  (d : driver) :
  4 <= exp d -> drive pass ts d = Some d.
Proof.
  intros Hge. destruct ts; cbn [drive];
    now rewrite (proj2 (Z.ltb_ge _ _) Hge).
Qed.

Lemma exp_trace_cons (pass : token -> driver -> driver) (t : token)
  (ts : list token) (d : driver) :
  exp d < 4 ->
  exp_trace pass (t :: ts) d =
  (exp d, boundary (tok_eol t) (exp d)) :: exp_trace pass ts (pass t d).
Proof. intros Hlt. cbn [exp_trace]. now rewrite (proj2 (Z.ltb_lt _ _) Hlt). Qed.

Lemma exp_trace_done (pass : token -> driver -> driver) (ts : list token)
  (d : driver) :
  4 <= exp d -> exp_trace pass ts d = [].
Proof.
  intros Hge. destruct ts; cbn [exp_trace];
    now rewrite (proj2 (Z.ltb_ge _ _) Hge).
Qed.

Lemma line_cons (b0 : Z) (bs : list Z) (b : Z) :
  line (b0 :: bs) b = mkToken b0 false :: line bs b.
Proof. reflexivity. Qed.

Lemma line_nil (b : Z) : line [] b = [mkToken b true].
Proof. reflexivity. Qed.

(** The counter of any loop whose passes treat [exp] as the drivers do. *)
Section Counter.

Variable pass : token -> driver -> driver.
Hypothesis pass_exp :
  forall t d, exp (pass t d) = advance (boundary (tok_eol t) (exp d)).

Lemma line_phase (x : Z) (bs : list Z) (b : Z) :
  x = 1 \/ x = 3 ->
  forall d, exp d = x ->
  exists e, exp e = x + 2 /\
    forall rest,
      drive pass (line bs b ++ rest) d = drive pass rest e /\
      exp_trace pass (line bs b ++ rest) d =
      repeat (x, x) (length bs) ++ (x, x + 1) :: exp_trace pass rest e.
Proof.
  intros Hx. induction bs as [|b0 bs IH]; intros d Hd.
  - exists (pass (mkToken b true) d). split.
    + rewrite pass_exp, Hd. now destruct Hx as [-> | ->].
    + intros rest. rewrite line_nil. cbn [app length repeat].
      rewrite drive_cons, exp_trace_cons by lia. cbn [tok_eol].
      rewrite Hd. split; [reflexivity|]. now destruct Hx as [-> | ->].
  - destruct (IH (pass (mkToken b0 false) d)) as (e & He & Hrest).
    { rewrite pass_exp, Hd. now destruct Hx as [-> | ->]. }
    exists e. split; trivial. intros rest. rewrite line_cons.
    cbn [app length repeat]. rewrite drive_cons, exp_trace_cons by lia.
    destruct (Hrest rest) as (-> & ->). cbn [tok_eol boundary].
    now rewrite Hd.
Qed.

Lemma two_lines (A : list Z) (a : Z) (M : list Z) (m : Z)
  (rest : list token) (d : driver) :
  exp d = 1 ->
  exists e, exp e = 5 /\
    drive pass (line A a ++ line M m ++ rest) d = Some e /\
    exp_trace pass (line A a ++ line M m ++ rest) d =
    repeat (1, 1) (length A) ++ (1, 2) :: repeat (3, 3) (length M) ++ [(3, 4)].
Proof.
  intros Hd.
  destruct (line_phase 1 A a (or_introl eq_refl) d Hd) as (e1 & He1 & H1).
  destruct (line_phase 3 M m (or_intror eq_refl) e1 He1) as (e2 & He2 & H2).
  exists e2. split; [exact He2|].
  destruct (H1 (line M m ++ rest)) as (-> & ->).
  destruct (H2 rest) as (-> & ->).
  rewrite drive_done, exp_trace_done by lia. now split.
Qed.



End Counter.

Lemma COFB_pass_exp (U : stack) (K : key) (beta : Z) (t : token) (d : driver) :
  exp (COFB_pass U K beta t d) = advance (boundary (tok_eol t) (exp d)).
Proof. now rewrite COFB_pass_eq. Qed.

Lemma dCOFB_pass_exp (U : stack) (K : key) (beta : Z) (t : token) (d : driver) :
  exp (dCOFB_pass U K beta t d) = advance (boundary (tok_eol t) (exp d)).
Proof. now rewrite dCOFB_pass_eq. Qed.

End Loop.

(** ** Encrypt and decrypt in step *)

Section RoundTrip.

Variables (U U' : stack) (K : key) (beta : Z).
Hypothesis U_ok : stack_ok U.
Hypothesis U'_ok : stack_ok U'.

Let enc := COFB_pass U K beta.
Let dec := dCOFB_pass U' K beta.

(** First line: nothing is printed, both drivers read the same blocks. *)
Lemma first_line (A : list Z) (a : Z) :
  forall d d', sync d d' -> exp d = 1 ->
  exists e e', sync e e' /\ exp e = 3 /\
    printed e = printed d /\ printed e' = printed d' /\
    forall rest rest',
      drive enc (line A a ++ rest) d = drive enc rest e /\
      drive dec (line A a ++ rest') d' = drive dec rest' e'.
Proof.
  induction A as [|b A IH]; intros d d' Hs Hd.
  - destruct (enc_dec_pass U U' K beta U_ok U'_ok d d' a true Hs)
      as (Hs1 & He1 & Hp1 & Hp1').
    rewrite Hd in *. cbn in Hs1, He1, Hp1, Hp1'.
    exists (enc (mkToken a true) d), (dec (mkToken a true) d').
    refine (conj Hs1 (conj He1 (conj Hp1 (conj Hp1' _)))).
    intros rest rest'. rewrite line_nil. cbn [app].
    destruct Hs as (He & _).
    split; apply drive_cons; lia.
  - destruct (enc_dec_pass U U' K beta U_ok U'_ok d d' b false Hs)
      as (Hs1 & He1 & Hp1 & Hp1').
    rewrite Hd in *. cbn in Hs1, He1, Hp1, Hp1'.
    destruct (IH _ _ Hs1 He1) as (e & e' & Hs2 & He2 & Hp2 & Hp2' & Hrest).
    exists e, e'. rewrite Hp2, Hp2'.
    refine (conj Hs2 (conj He2 (conj Hp1 (conj Hp1' _)))).
    intros rest rest'. rewrite line_cons. cbn [app].
    destruct Hs as (He & _).
    rewrite !drive_cons by lia. apply (Hrest rest rest').
Qed.

(** Second line: the encrypt driver prints one block per block read; the
    decrypt driver, reading those, prints the blocks the encrypt driver
    read. *)
Lemma second_line (M : list Z) (m : Z) :
  forall d d', sync d d' -> exp d = 3 ->
  exists C c e e', length C = length M /\ Y e = Y e' /\
    printed e = printed d ++ C ++ [c] /\
    printed e' = printed d' ++ M ++ [m] /\
    forall rest rest',
      drive enc (line M m ++ rest) d = Some e /\
      drive dec (line C c ++ rest') d' = Some e'.
Proof.
  induction M as [|b M IH]; intros d d' Hs Hd.
  - destruct (enc_dec_pass U U' K beta U_ok U'_ok d d' m true Hs)
      as (Hs1 & He1 & Hp1 & Hp1').
    rewrite Hd in *. cbn in Hs1, He1, Hp1, Hp1'.
    exists [], (Z.lxor (Y d) m), (enc (mkToken m true) d),
           (dec (mkToken (Z.lxor (Y d) m) true) d').
    destruct Hs1 as (Hee & Hyy & _).
    refine (conj eq_refl (conj Hyy (conj Hp1 (conj Hp1' _)))).
    intros rest rest'. rewrite !line_nil. cbn [app].
    destruct Hs as (He & _).
    rewrite !drive_cons by lia.
    split; apply drive_done; fold enc in He1; fold dec in Hee; fold enc in Hee; lia.
  - destruct (enc_dec_pass U U' K beta U_ok U'_ok d d' b false Hs)
      as (Hs1 & He1 & Hp1 & Hp1').
    rewrite Hd in *. cbn in Hs1, He1, Hp1, Hp1'.
    destruct (IH _ _ Hs1 He1) as (C & c & e & e' & HC & Hyy & Hp2 & Hp2' & Hrest).
    exists (Z.lxor (Y d) b :: C), c, e, e'.
    rewrite Hp2, Hp2', Hp1, Hp1', <- !app_assoc. cbn [length app].
    refine (conj (f_equal Datatypes.S HC) (conj Hyy (conj eq_refl (conj eq_refl _)))).
    intros rest rest'. rewrite !line_cons. cbn [app].
    destruct Hs as (He & _).
    rewrite !drive_cons by lia. apply (Hrest rest rest').
Qed.

End RoundTrip.

(** ** What a driver call depends on *)

Section Views.

Variables (U U' : stack) (K : key) (beta : Z).
Hypothesis U_ok : stack_ok U.
Hypothesis U'_ok : stack_ok U'.

Lemma COFB_pass_view (t : token) (d d' : driver) :
  same_view d d' ->
  same_view (COFB_pass U K beta t d) (COFB_pass U' K beta t d').
Proof.
  intros ((He & Hy & Hm) & Hp). rewrite !COFB_pass_eq. cbv zeta.
  rewrite <- He, <- Hy, <- Hp.
  destruct (mask_mx2 (field d) (field d') beta (tok_B t) (tok_B t)
              (boundary (tok_eol t) (exp d)) Hm) as (Hmsk & Hmx).
  unfold same_view, sync. cbn [exp Y field printed]. rewrite <- Hmsk.
  refine (conj (conj eq_refl (conj _ Hmx)) eq_refl).
  now apply midori_stack.
Qed.

Lemma dCOFB_pass_view (t : token) (d d' : driver) :
  same_view d d' ->
  same_view (dCOFB_pass U K beta t d) (dCOFB_pass U' K beta t d').
Proof.
  intros ((He & Hy & Hm) & Hp). rewrite !dCOFB_pass_eq. cbv zeta.
  rewrite <- He, <- Hy, <- Hp.
  destruct (mask_mx2 (field d) (field d') beta (tok_B t) (tok_B t)
              (boundary (tok_eol t) (exp d)) Hm) as (Hmsk & Hmx).
  unfold same_view, sync. cbn [exp Y field printed]. rewrite <- Hmsk.
  refine (conj (conj eq_refl (conj _ Hmx)) eq_refl).
  now apply midori_stack.
Qed.

End Views.

Lemma drive_view (pass pass' : token -> driver -> driver) :
  (forall t d d', same_view d d' -> same_view (pass t d) (pass' t d')) ->
  forall ts d d', same_view d d' ->
    option_map observe (drive pass ts d) = option_map observe (drive pass' ts d').
Proof.
  intros Hpass. induction ts as [|t ts IH]; intros d d' Hv;
    pose proof Hv as ((He & Hy & _) & Hp); cbn [drive]; rewrite <- He;
    destruct (exp d <? 4); trivial.
  - cbn. unfold observe. now rewrite Hy, Hp.
  - now apply IH, Hpass.
  - cbn. unfold observe. now rewrite Hy, Hp.
Qed.

Lemma COFB_init_view (U U' : stack) (K : key) (N : Z) (f f' : FieldState) :
  stack_ok U -> stack_ok U' ->
  fst (COFB_init U K N f) = fst (COFB_init U' K N f') /\
  same_view (snd (COFB_init U K N f)) (snd (COFB_init U' K N f')).
Proof.
  intros HU HU'. unfold COFB_init. cbv zeta. cbn [fst snd].
  rewrite (midori_stack U U') by assumption.
  unfold same_view, sync. cbn [exp Y field printed mx2]. auto.
Qed.

(** The output of a driver call is the same whatever the static variables
    and the uninitialised locals contain when it starts. *)
Lemma COFB_entry_state (U U' : stack) (K : key) (N : Z) (f f' : FieldState)
  (ts : list token) :
  stack_ok U -> stack_ok U' -> COFB U K N f ts = COFB U' K N f' ts.
Proof.
  intros HU HU'. unfold COFB, COFB_run.
  destruct (COFB_init_view U U' K N f f' HU HU') as (Hb & Hv).
  rewrite (surjective_pairing (COFB_init U K N f)),
          (surjective_pairing (COFB_init U' K N f')), <- Hb.
  apply drive_view; trivial. intros t d d'. now apply COFB_pass_view.
Qed.

Lemma dCOFB_entry_state (U U' : stack) (K : key) (N T T' : Z)
  (f f' : FieldState) (ts : list token) :
  stack_ok U -> stack_ok U' -> dCOFB U K N T f ts = dCOFB U' K N T' f' ts.
Proof.
  intros HU HU'. unfold dCOFB, dCOFB_run.
  destruct (COFB_init_view U U' K N f f' HU HU') as (Hb & Hv).
  rewrite (surjective_pairing (COFB_init U K N f)),
          (surjective_pairing (COFB_init U' K N f')), <- Hb.
  apply drive_view; trivial. intros t d d'. now apply dCOFB_pass_view.
Qed.


(** * Test vectors

    The two Midori-64 test vectors of the cipher's designers, and the run of
    the worked example of the README. *)

Example midori_zero_vector :
  midori U0 0 (0, 0) 0 = 0x3c9cceda2bbd449a.
Proof. vm_compute. reflexivity. Qed.

Example midori_test_vector :
  midori U1 0x42c20fd3b586879e (0x687ded3b3c85b3f3, 0x5b1009863e2a8cbf) 0
  = 0x66bcdc6270d901cd.
Proof. vm_compute. reflexivity. Qed.

Example COFB_two_lines :
  COFB U0 K_ex N_ex fresh (line [] 0x1111 ++ line [] 0xAAAABBBBCCCCDDDD)
  = Some ([0x7c85fc9c3cc2df44], 0x39284cb4de731149).
Proof. vm_compute. reflexivity. Qed.

Example dCOFB_two_lines :
  dCOFB U1 K_ex N_ex 0 stale (line [] 0x1111 ++ line [] 0x7c85fc9c3cc2df44)
  = Some ([0xAAAABBBBCCCCDDDD], 0x39284cb4de731149).
Proof. vm_compute. reflexivity. Qed.

(** * The claims *)




(** C2, as amended.  In the encrypt driver [exp] starts at 1.  Every pass
    leaves in [exp] the value [advance (boundary eol exp)]: a pass whose
    block does not end a line leaves 1 at 1 and 3 at 3; a pass whose block
    ends a line increments [exp] at the boundary (1 to 2, 3 to 4), processes
    the block with that value, and the closing [switch] increments it once
    more (2 to 3, 4 to 5).  On an input of two lines the loop therefore tests
    [exp] = 1 for every block of the first line and [exp] = 3 for every
    block of the second, processes the blocks with 1, ..., 1, 2, 3, ..., 3, 4,
    and ends after the second end of line with [exp] = 5. *)
Theorem COFB_counter (U : stack) (K : key) (N : Z) (f : FieldState)
  (A : list Z) (a : Z) (M : list Z) (m : Z) (rest : list token) :
  exp (snd (COFB_init U K N f)) = 1 /\
  (forall beta t d,
     exp (COFB_pass U K beta t d) = advance (boundary (tok_eol t) (exp d))) /\
  (advance (boundary false 1), advance (boundary true 1),
   advance (boundary false 3), advance (boundary true 3)) = (1, 3, 3, 5) /\
  exp_trace (COFB_pass U K (fst (COFB_init U K N f)))
            (line A a ++ line M m ++ rest) (snd (COFB_init U K N f)) =
  repeat (1, 1) (length A) ++ (1, 2) :: repeat (3, 3) (length M) ++ [(3, 4)] /\
  option_map exp (COFB_run U K N f (line A a ++ line M m ++ rest)) = Some 5.
Proof.
  split; [reflexivity|]. split; [intros; apply COFB_pass_exp|].
  split; [reflexivity|].
  unfold COFB_run.
  pose proof (surjective_pairing (COFB_init U K N f)) as E.
  set (beta := fst (COFB_init U K N f)) in *.
  set (d := snd (COFB_init U K N f)) in *.
  assert (Hd : exp d = 1) by reflexivity. rewrite E. clearbody d beta.
  destruct (two_lines (COFB_pass U K beta) (COFB_pass_exp U K beta)
              A a M m rest d Hd) as (e & He & -> & ->).
  cbn [option_map]. rewrite He. split; reflexivity.
Qed.

Example counter_values :
  option_map exp
    (COFB_run U0 K_ex N_ex fresh
       [mkToken 0x1111 true; mkToken 0x2222 true; mkToken 0x3333 true])
  = Some 5 /\
  exp_trace (COFB_pass U0 K_ex (fst (COFB_init U0 K_ex N_ex fresh)))
    [mkToken 0x1111 true; mkToken 0x2222 true; mkToken 0x3333 true]
    (snd (COFB_init U0 K_ex N_ex fresh))
  = [(1, 2); (3, 4)] /\
  Spec.counter
    [mkToken 0x1111 true; mkToken 0x2222 true; mkToken 0x3333 true] 1
  = Some 4.
Proof. vm_compute. repeat split. Qed.

(** C2 as stated fails: on three one-block lines the counter of the
    specification (one step per end of line, stop at 4) ends at 4 after the
    third line, the driver's counter ends at 5 after the second. *)
Lemma COFB_counter_counterexample :
  option_map exp
    (COFB_run U0 K_ex N_ex fresh
       [mkToken 0x1111 true; mkToken 0x2222 true; mkToken 0x3333 true])
  <> Spec.counter
       [mkToken 0x1111 true; mkToken 0x2222 true; mkToken 0x3333 true] 1.
Proof. vm_compute. discriminate. Qed.

(** C3. [midori(S, (K0, K1), 0)] is the cipher of the specification:
    whitening with [K0 xor K1], fifteen rounds of SubCell, forward
    ShuffleCell, MixColumn and round-key addition, a last SubCell and a last
    whitening; nibble [j] of round key [i] is nibble [j] of [K0] (even [i])
    or [K1] (odd [i]) xor bit [15 - j] of the round constant of round [i].
    The contents of the uninitialised locals do not matter. *)
Theorem midori_specified (U : stack) (S K0 K1 : Z) :
  stack_ok U ->
  midori U S (K0, K1) 0 = Spec.midori S K0 K1 /\
  forall i j, 0 <= i < 15 -> 0 <= j < 16 ->
    Spec.nib (Spec.RK K0 K1 i) j =
    Z.lxor (Spec.nib (if Z.even i then K0 else K1) j)
           (Z.b2z (Z.testbit (beta_at i) (15 - j))).
Proof.
  intros HU. split; [exact (midori_refines U S (K0, K1) HU)|].
  intros i j Hi Hj. unfold Spec.RK.
  rewrite (nib_obtNibble (Spec.pack _)) by trivial.
  rewrite pack_obtNibble; trivial.
  - rewrite Zeven_mod. f_equal.
    change (Z.land (Z.shiftr (beta_at i) (15 - j)) 1)
      with (Z.land (Z.shiftr (beta_at i) (15 - j)) (Z.ones 1)).
    rewrite Z.land_ones, <- Z.bit0_mod, Z.shiftr_spec by lia.
    reflexivity.
  - intros q. apply lxor_nibble; [apply nib_range|].
    pose proof (land_1_range (Z.shiftr (beta_at i) (15 - q))).
    unfold is_nibble. lia.
Qed.

Lemma midori_specified_witness :
  stack_ok U1 /\
  midori U1 0x42c20fd3b586879e (0x687ded3b3c85b3f3, 0x5b1009863e2a8cbf) 0 =
  Spec.midori 0x42c20fd3b586879e 0x687ded3b3c85b3f3 0x5b1009863e2a8cbf.
Proof.
  assert (H1 : stack_ok U1).
  { intros i. unfold U1, is_bloque, u64. cbn [uRK uSC uSH uMC].
    repeat split; try (apply Z.mod_pos_bound); lia. }
  split; [exact H1|].
  exact (proj1 (midori_specified U1 0x42c20fd3b586879e 0x687ded3b3c85b3f3
                  0x5b1009863e2a8cbf H1)).
Defined.

(** C4. The blocks a driver call prints and the tag it returns do not
    depend on what the static variables [mx2], [mx2x3], [mx2x3x3] (nor the
    uninitialised locals) contain when the call starts; in particular a call
    that starts from the state [field d1] an earlier call ended in gives
    what it gives in a fresh process. *)
Theorem field_state_reset (U U' : stack) (K : key) (N T : Z)
  (f f' : FieldState) (d1 : driver) (ts : list token) :
  stack_ok U -> stack_ok U' ->
  COFB U K N f ts = COFB U' K N f' ts /\
  dCOFB U K N T f ts = dCOFB U' K N T f' ts /\
  COFB U K N (field d1) ts = COFB U' K N fresh ts /\
  dCOFB U K N T (field d1) ts = dCOFB U' K N T fresh ts.
Proof.
  intros HU HU'.
  split; [apply COFB_entry_state; assumption|].
  split; [apply dCOFB_entry_state; assumption|].
  split; [apply COFB_entry_state; assumption|].
  apply dCOFB_entry_state; assumption.
Qed.

Lemma field_state_reset_witness :
  stack_ok U0 /\ stack_ok U1 /\
  COFB U0 K_ex N_ex stale (line [0x1111] 0x2222 ++ line [] 0xAAAABBBBCCCCDDDD) =
  COFB U1 K_ex N_ex fresh (line [0x1111] 0x2222 ++ line [] 0xAAAABBBBCCCCDDDD).
Proof.
  assert (H0 : stack_ok U0) by (intros i; unfold is_bloque; cbn; lia).
  assert (H1 : stack_ok U1).
  { intros i. unfold U1, is_bloque, u64. cbn [uRK uSC uSH uMC].
    repeat split; try (apply Z.mod_pos_bound); lia. }
  split; [exact H0|]. split; [exact H1|].
  exact (proj1 (field_state_reset U0 U1 K_ex N_ex 0 stale fresh
                  (mkDriver 5 2 0 stale [])
                  (line [0x1111] 0x2222 ++ line [] 0xAAAABBBBCCCCDDDD) H0 H1)).
Defined.

(** C5. [dCOFB] never looks at its expected-tag argument: with any two
    expected tags it prints the same blocks and returns the same computed
    tag, on every input; and on an input of two lines it runs to completion
    and returns a tag. *)
Theorem dCOFB_ignores_tag (U : stack) (K : key) (N T1 T2 : Z) (f : FieldState)
  (ts : list token) (A : list Z) (a : Z) (M : list Z) (m : Z)
  (rest : list token) :
  dCOFB U K N T1 f ts = dCOFB U K N T2 f ts /\
  exists P T',
    dCOFB U K N T1 f (line A a ++ line M m ++ rest) = Some (P, T') /\
    dCOFB U K N T2 f (line A a ++ line M m ++ rest) = Some (P, T').
Proof.
  split; [reflexivity|].
  unfold dCOFB, dCOFB_run.
  pose proof (surjective_pairing (COFB_init U K N f)) as E.
  set (beta := fst (COFB_init U K N f)) in *.
  set (d := snd (COFB_init U K N f)) in *.
  assert (Hd : exp d = 1) by reflexivity. rewrite E. clearbody d beta.
  destruct (two_lines (dCOFB_pass U K beta) (dCOFB_pass_exp U K beta)
              A a M m rest d Hd) as (e & _ & -> & _).
  exists (printed e), (Y e). split; reflexivity.
Qed.

(** C6. For a 64-bit [Y], [mulGY Y] is [(Y << 16) mod 2^64] with its low 16
    bits overwritten by the 16-bit value [(Y >> 48) xor (Y and 0xFFFF)];
    equivalently, [Y] rotated left by 16 with the low 16 bits of [Y] xored
    into the low 16 bits (where the rotation has put the top 16 bits). *)
Theorem mulGY_formula (Y : Z) :
  is_bloque Y ->
  0 <= Z.lxor (Z.shiftr Y 48) (Z.land Y 0xFFFF) < 2 ^ 16 /\
  mulGY Y = Spec.overwrite_low16 (u64 (Z.shiftl Y 16))
              (Z.lxor (Z.shiftr Y 48) (Z.land Y 0xFFFF)) /\
  mulGY Y = Z.lxor (Spec.rotl16 Y) (Z.land Y 0xFFFF).
Proof.
  intros HY. pose proof (fold16_range Y HY) as Hv.
  split; [exact Hv|]. split; apply Z.bits_inj'; intros i Hi.
  - rewrite mulGY_bits, overwrite_low16_bits by trivial.
    change 0xFFFF with (Z.ones 16). push_testbit.
    split_bits.
  - rewrite mulGY_bits, Z.lxor_spec, rotl16_bits by trivial.
    change 0xFFFF with (Z.ones 16). push_testbit. split_bits.
Qed.

Lemma mulGY_formula_witness :
  is_bloque 0x0123456789ABCDEF /\
  mulGY 0x0123456789ABCDEF =
  Spec.overwrite_low16 (u64 (Z.shiftl 0x0123456789ABCDEF 16))
    (Z.lxor (Z.shiftr 0x0123456789ABCDEF 48) (Z.land 0x0123456789ABCDEF 0xFFFF)).
Proof.
  assert (H : is_bloque 0x0123456789ABCDEF) by (unfold is_bloque; lia).
  split; [exact H|].
  exact (proj1 (proj2 (mulGY_formula 0x0123456789ABCDEF H))).
Defined.

(** C7. [gdoble a] is [(a << 1) xor 0x1B] reduced modulo 2^32 when bit 31
    of [a] is set, and [a << 1] reduced modulo 2^32 otherwise. *)
Theorem gdoble_value (a : Z) :
  gdoble a = if Z.testbit a 31 then (Z.lxor (Z.shiftl a 1) 0x1B) mod 2 ^ 32
             else (Z.shiftl a 1) mod 2 ^ 32.
Proof. exact (gdoble_eq a). Qed.

(** C8. Nibble round trip: reading position [p] after writing the 4-bit
    value [v] there gives [v]; writing back the nibble read gives the block
    unchanged; a write at [p] leaves the nibble at every other position
    unchanged. *)
Theorem nibble_round_trip (S p v : Z) :
  0 <= p < 16 -> is_nibble v ->
  obtNibble (asgNibble S p v) p = v /\
  asgNibble S p (obtNibble S p) = S /\
  forall q, 0 <= q < 16 -> q <> p ->
    obtNibble (asgNibble S p v) q = obtNibble S q.
Proof.
  intros Hp Hv. split; [now apply obtNibble_asgNibble_same|].
  split; [now apply asgNibble_obtNibble|].
  intros q Hq Hne. now apply obtNibble_asgNibble_other.
Qed.

Lemma nibble_round_trip_witness :
  0 <= 3 < 16 /\ is_nibble 0xa /\
  obtNibble (asgNibble 0x0123456789ABCDEF 3 0xa) 3 = 0xa /\
  asgNibble 0x0123456789ABCDEF 3 (obtNibble 0x0123456789ABCDEF 3)
  = 0x0123456789ABCDEF.
Proof.
  assert (Hp : 0 <= 3 < 16) by lia.
  assert (Hv : is_nibble 0xa) by (unfold is_nibble; lia).
  split; [exact Hp|]. split; [exact Hv|].
  pose proof (nibble_round_trip 0x0123456789ABCDEF 3 0xa Hp Hv) as (H1 & H2 & _).
  split; [exact H1|exact H2].
Defined.

(** C9. [mask] ignores its block argument: with any two blocks it returns
    the same value and leaves the same field state, those of
    [goper(finB, beta)]. *)
Theorem mask_ignores_block (f : FieldState) (beta B B' finB : Z) :
  mask f beta B finB = mask f beta B' finB /\
  mask f beta B finB = goper f finB (u32 beta).
Proof. split; [reflexivity|apply mask_goper]. Qed.

(** C10. [mulGY] is a bijection on 64-bit blocks: it maps blocks to blocks,
    two blocks with the same image are equal, and every block is the image
    of a block. *)
Theorem mulGY_bijective (Y Y' : Z) :
  is_bloque Y -> is_bloque Y' ->
  is_bloque (mulGY Y) /\
  (mulGY Y = mulGY Y' -> Y = Y') /\
  exists X, is_bloque X /\ mulGY X = Y'.
Proof.
  intros HY HY'. split; [now apply mulGY_range|].
  split; [now apply mulGY_injective|].
  exists (mulGY_inv Y'). split; [now apply mulGY_inv_range|].
  now apply mulGY_mulGY_inv.
Qed.

Lemma mulGY_bijective_witness :
  is_bloque 0x0123456789ABCDEF /\ is_bloque 0xFEDCBA9876543210 /\
  is_bloque (mulGY 0x0123456789ABCDEF) /\
  (mulGY 0x0123456789ABCDEF = mulGY 0xFEDCBA9876543210 ->
   0x0123456789ABCDEF = 0xFEDCBA9876543210) /\
  exists X, is_bloque X /\ mulGY X = 0xFEDCBA9876543210.
Proof.
  assert (H : is_bloque 0x0123456789ABCDEF) by (unfold is_bloque; lia).
  assert (H' : is_bloque 0xFEDCBA9876543210) by (unfold is_bloque; lia).
  split; [exact H|]. split; [exact H'|].
  exact (mulGY_bijective 0x0123456789ABCDEF 0xFEDCBA9876543210 H H').
Defined.

(** * Further properties of the cipher *)

(** Case analysis on a nibble value or position. *)
Ltac nibble_cases v Hv :=
  assert (v = 0 \/ v = 1 \/ v = 2 \/ v = 3 \/ v = 4 \/ v = 5 \/ v = 6 \/ v = 7 \/
          v = 8 \/ v = 9 \/ v = 10 \/ v = 11 \/ v = 12 \/ v = 13 \/ v = 14 \/
          v = 15) as Hv by (unfold is_nibble in *; lia);
  repeat (destruct Hv as [Hv|Hv]; [subst v|]); [..|subst v].

Section RoundPrimitives.

Lemma subCell_range (SC S : Z) : is_bloque SC -> is_bloque (subCell SC S).
Proof. intros H. rewrite subCell_spec by trivial. apply pack_range.
  intros i. apply nib_range. Qed.

Lemma shuffleCell_range (SH S inv : Z) :
  is_bloque SH -> is_bloque (shuffleCell SH S inv).
Proof. intros H. rewrite shuffleCell_spec by trivial. apply pack_range.
  intros i. apply nib_range. Qed.

Lemma mixColumn_range (MC S : Z) : is_bloque MC -> is_bloque (mixColumn MC S).
Proof.
  intros H. rewrite mixColumn_spec by trivial. apply pack_range.
  intros i. repeat apply lxor_nibble; apply nib_range.
Qed.

Lemma subCell_nibble (SC S q : Z) :
  is_bloque SC -> 0 <= q < 16 ->
  obtNibble (subCell SC S) q = obtNibble Sb0 (obtNibble S q).
Proof.
  intros H Hq. rewrite subCell_spec by trivial. unfold Spec.SubCell.
  rewrite pack_obtNibble by (trivial; intros i; apply nib_range).
  rewrite (nib_obtNibble S) by trivial.
  apply nib_obtNibble, obtNibble_range.
Qed.

Lemma shuffleCell_nibble (SH S inv q : Z) :
  is_bloque SH -> 0 <= q < 16 ->
  obtNibble (shuffleCell SH S inv) q =
  obtNibble S (obtNibble (if inv =? 0 then shuffleP else shufflePInv) q).
Proof.
  intros H Hq. rewrite shuffleCell_spec by trivial. unfold Spec.ShuffleCell.
  rewrite pack_obtNibble by (trivial; intros i; apply nib_range).
  destruct (inv =? 0); cbn [negb]; rewrite (nib_obtNibble _ q) by trivial;
    apply nib_obtNibble, obtNibble_range.
Qed.

Lemma mixColumn_nibble (MC S q : Z) :
  is_bloque MC -> 0 <= q < 16 ->
  obtNibble (mixColumn MC S) q =
  Z.lxor (Z.lxor (Z.lxor (Z.lxor (obtNibble S (4 * (q / 4)))
                                 (obtNibble S (4 * (q / 4) + 1)))
                         (obtNibble S (4 * (q / 4) + 2)))
                 (obtNibble S (4 * (q / 4) + 3)))
         (obtNibble S q).
Proof.
  intros H Hq. rewrite mixColumn_spec by trivial. unfold Spec.MixColumn.
  rewrite pack_obtNibble
    by (trivial; intros i; repeat apply lxor_nibble; apply nib_range).
  assert (0 <= 4 * (q / 4) <= 12) by (Z.div_mod_to_equations; lia).
  now rewrite !nib_obtNibble by lia.
Qed.

Lemma sbox_involution (v : Z) :
  is_nibble v -> obtNibble Sb0 (obtNibble Sb0 v) = v.
Proof. intros Hv. nibble_cases v Hc; reflexivity. Qed.

Lemma shuffle_inverse_l (q : Z) :
  0 <= q < 16 -> obtNibble shuffleP (obtNibble shufflePInv q) = q.
Proof. intros Hq. nibble_cases q Hc; reflexivity. Qed.

Lemma shuffle_inverse_r (q : Z) :
  0 <= q < 16 -> obtNibble shufflePInv (obtNibble shuffleP q) = q.
Proof. intros Hq. nibble_cases q Hc; reflexivity. Qed.

Lemma subCell_subCell (SC SC' S : Z) :
  is_bloque SC -> is_bloque SC' -> is_bloque S ->
  subCell SC' (subCell SC S) = S.
Proof.
  intros H H' HS. apply nibble_ext; trivial; [now apply subCell_range|].
  intros q Hq. rewrite !subCell_nibble by trivial.
  apply sbox_involution, obtNibble_range.
Qed.

Lemma shuffleCell_inverse (SH SH' S inv inv' : Z) :
  is_bloque SH -> is_bloque SH' -> is_bloque S ->
  (inv =? 0) = negb (inv' =? 0) ->
  shuffleCell SH' (shuffleCell SH S inv) inv' = S.
Proof.
  intros H H' HS Hinv. apply nibble_ext; trivial; [now apply shuffleCell_range|].
  intros q Hq. rewrite !shuffleCell_nibble by (trivial; apply obtNibble_range).
  rewrite Hinv. destruct (inv' =? 0); cbn [negb]; f_equal;
    [now apply shuffle_inverse_r|now apply shuffle_inverse_l].
Qed.

Lemma column_base (q k : Z) :
  0 <= q < 16 -> 0 <= k < 4 -> 4 * ((4 * (q / 4) + k) / 4) = 4 * (q / 4).
Proof. intros Hq Hk. Z.div_mod_to_equations. lia. Qed.

Lemma mixColumn_mixColumn (MC MC' S : Z) :
  is_bloque MC -> is_bloque MC' -> is_bloque S ->
  mixColumn MC' (mixColumn MC S) = S.
Proof.
  intros H H' HS. apply nibble_ext; trivial; [now apply mixColumn_range|].
  intros q Hq.
  assert (Hc : 0 <= 4 * (q / 4) <= 12) by (Z.div_mod_to_equations; lia).
  rewrite (mixColumn_nibble MC') by trivial.
  rewrite !(mixColumn_nibble MC) by (trivial; lia).
  pose proof (column_base q 0 Hq ltac:(lia)) as E0. rewrite Z.add_0_r in E0.
  rewrite E0, !column_base by (trivial; lia).
  xor_ac.
Qed.

End RoundPrimitives.

Section Linear.

Lemma obtNibble_lxor (A B q : Z) :
  0 <= q < 16 ->
  obtNibble (Z.lxor A B) q = Z.lxor (obtNibble A q) (obtNibble B q).
Proof.
  intros Hq. apply Z.bits_inj'. intros j Hj.
  rewrite Z.lxor_spec, !obtNibble_bits, Z.lxor_spec by trivial.
  split_cmp.
Qed.

Lemma lxor_bloque (A B : Z) : is_bloque A -> is_bloque B -> is_bloque (Z.lxor A B).
Proof.
  intros HA HB.
  assert (H0 : 0 <= Z.lxor A B) by (apply Z.lxor_nonneg; unfold is_bloque in *; lia).
  split; trivial. apply below_pow2; trivial; [lia|].
  intros i Hi. now rewrite Z.lxor_spec, !testbit_bloque.
Qed.

Lemma shuffleCell_lxor (SH SH1 SH2 A B inv : Z) :
  is_bloque SH -> is_bloque SH1 -> is_bloque SH2 ->
  shuffleCell SH (Z.lxor A B) inv =
  Z.lxor (shuffleCell SH1 A inv) (shuffleCell SH2 B inv).
Proof.
  intros H H1 H2. apply nibble_ext.
  - now apply shuffleCell_range.
  - apply lxor_bloque; now apply shuffleCell_range.
  - intros q Hq.
    rewrite obtNibble_lxor, !shuffleCell_nibble by trivial.
    apply obtNibble_lxor, obtNibble_range.
Qed.

Lemma mixColumn_lxor (MC MC1 MC2 A B : Z) :
  is_bloque MC -> is_bloque MC1 -> is_bloque MC2 ->
  mixColumn MC (Z.lxor A B) = Z.lxor (mixColumn MC1 A) (mixColumn MC2 B).
Proof.
  intros H H1 H2. apply nibble_ext.
  - now apply mixColumn_range.
  - apply lxor_bloque; now apply mixColumn_range.
  - intros q Hq.
    assert (Hc : 0 <= 4 * (q / 4) <= 12) by (Z.div_mod_to_equations; lia).
    rewrite obtNibble_lxor, !mixColumn_nibble by trivial.
    rewrite !obtNibble_lxor by lia. xor_ac.
Qed.

End Linear.

Section KeySchedule.

Lemma mem_upto_out (k q : Z) : q < 0 \/ k <= q -> mem q (upto k) = false.
Proof.
  intros Hq. apply not_true_is_false. intros Hm.
  apply existsb_exists in Hm. destruct Hm as (x & Hx & Heq).
  apply Z.eqb_eq in Heq. subst x.
  pose proof (upto_range k) as Hall. rewrite Forall_forall in Hall.
  specialize (Hall q Hx). lia.
Qed.

Lemma keyGen_untouched (RK : Z -> Z) (Ki : key) (k : Z) :
  k < 0 \/ 15 <= k -> snd (keyGen RK Ki) k = RK k.
Proof.
  intros Hk. unfold keyGen. cbn [snd].
  change (fold_left (fun RK i =>
            fold_left (fun RK j => store RK i (asgNibble (RK i) j (key_nibble Ki i j)))
                      (upto 16) RK) (upto 15) RK k = RK k).
  rewrite (keyGen_rows (key_nibble Ki)) by apply NoDup_upto.
  now rewrite mem_upto_out.
Qed.

Lemma spread_range (b : Z) : is_bloque (spread b).
Proof.
  apply pack_range. intros j.
  pose proof (land_1_range (Z.shiftr b (15 - j))). unfold is_nibble. lia.
Qed.

Lemma RK_xor (K0 K1 i : Z) :
  is_bloque K0 -> is_bloque K1 ->
  Spec.RK K0 K1 i = Z.lxor (if Z.even i then K0 else K1) (spread (beta_at i)).
Proof.
  intros H0 H1.
  assert (Hbit : forall j, is_nibble (Z.land (Z.shiftr (beta_at i) (15 - j)) 1)).
  { intros j. pose proof (land_1_range (Z.shiftr (beta_at i) (15 - j))).
    unfold is_nibble. lia. }
  apply nibble_ext.
  - apply pack_range. intros j. apply lxor_nibble; [apply nib_range|apply Hbit].
  - apply lxor_bloque; [now destruct (Z.even i)|apply spread_range].
  - intros q Hq. unfold Spec.RK, spread.
    rewrite obtNibble_lxor, !pack_obtNibble; trivial.
    + rewrite Zeven_mod. now rewrite nib_obtNibble.
    + intros j. apply lxor_nibble; [apply nib_range|apply Hbit].
Qed.

Lemma RK_range (K0 K1 i : Z) : is_bloque (Spec.RK K0 K1 i).
Proof.
  apply pack_range. intros j. apply lxor_nibble; [apply nib_range|].
  pose proof (land_1_range (Z.shiftr (beta_at i) (15 - j))).
  unfold is_nibble. lia.
Qed.

Lemma keyGenInv_fold (U : stack) (RK : Z -> Z) (l : list Z) :
  NoDup l ->
  forall tmp RK_1 k,
    snd (fold_left (fun (st : Z * (Z -> Z)) i =>
           let tmp := mixColumn (uMC U i) (RK (r - 2 - i)) in
           (tmp, store (snd st) i (shuffleCell (uSH U i) tmp (u8 (-1)))))
         l (tmp, RK_1)) k =
    if mem k l
    then shuffleCell (uSH U k) (mixColumn (uMC U k) (RK (r - 2 - k))) (u8 (-1))
    else RK_1 k.
Proof.
  induction l as [|a l IH]; intros Hnd tmp RK_1 k; cbn [fold_left]; trivial.
  inversion Hnd as [|? ? Hnotin Hnd']; subst.
  cbv zeta. cbn [snd]. rewrite IH by trivial.
  unfold mem; cbn [existsb]; fold (mem k l).
  destruct (mem k l) eqn:Hm; [now rewrite orb_true_r|].
  rewrite orb_false_r. unfold store.
  now destruct (Z.eqb_spec k a) as [->|Hne].
Qed.

Lemma keyGenInv_at (U : stack) (tmp : Z) (RK_1 RK : Z -> Z) (k : Z) :
  snd (keyGenInv U tmp RK_1 RK) k =
  if mem k (upto 15)
  then shuffleCell (uSH U k) (mixColumn (uMC U k) (RK (14 - k))) (u8 (-1))
  else RK_1 k.
Proof.
  unfold keyGenInv. change (r - 2 + 1) with 15.
  rewrite keyGenInv_fold by apply NoDup_upto.
  now replace (r - 2 - k) with (14 - k) by (unfold r; lia).
Qed.

End KeySchedule.

(** Undoing a chain of rounds, for abstract round functions. *)
Section Chains.

Variables (F G : Z -> Z -> Z) (SC : Z -> Z) (P : Z -> Prop) (phi : Z -> Z).

Lemma fold_left_keeps (l : list Z) :
  (forall X a, In a l -> P (F X a)) ->
  forall T, P T -> P (fold_left F l T).
Proof.
  induction l as [|a l IH]; intros HF T HT; [exact HT|].
  apply (IH (fun X b Hb => HF X b (or_intror Hb)) (F T a)).
  apply HF. now left.
Qed.

Lemma fold_left_undo (l : list Z) :
  (forall X a, In a l -> P (F X a)) ->
  (forall X a, In a l -> P X -> G (SC (F X a)) (phi a) = SC X) ->
  forall T, P T ->
    fold_left G (map phi (rev l)) (SC (fold_left F l T)) = SC T.
Proof.
  induction l as [|a l IH] using rev_ind; intros HF HG T HT; [reflexivity|].
  rewrite fold_left_app, rev_app_distr.
  change (fold_left G (phi a :: map phi (rev l))
            (SC (F (fold_left F l T) a)) = SC T).
  change (fold_left G (map phi (rev l))
            (G (SC (F (fold_left F l T) a)) (phi a)) = SC T).
  rewrite HG.
  - apply IH; trivial.
    + intros X b Hb. apply HF, in_or_app. now left.
    + intros X b Hb. apply HG, in_or_app. now left.
  - apply in_or_app. right. now left.
  - apply fold_left_keeps; trivial.
    intros X b Hb. apply HF, in_or_app. now left.
Qed.

Lemma fold_left_backwards (X : Z) :
  fold_left G (upto 15) X =
  fold_left G (map (fun a => 14 - a) (rev (upto 15))) X.
Proof. reflexivity. Qed.

End Chains.

Section Inverse.

Lemma zero_bloque : is_bloque 0.
Proof. unfold is_bloque. lia. Qed.

Lemma SubCell_code (X : Z) : Spec.SubCell X = subCell 0 X.
Proof. symmetry. apply subCell_spec, zero_bloque. Qed.

Lemma MixColumn_code (X : Z) : Spec.MixColumn X = mixColumn 0 X.
Proof. symmetry. apply mixColumn_spec, zero_bloque. Qed.

Lemma ShuffleCell_code (X : Z) (b : bool) :
  Spec.ShuffleCell X b = shuffleCell 0 X (if b then 255 else 0).
Proof.
  rewrite shuffleCell_spec by apply zero_bloque. now destruct b.
Qed.

Lemma enc_round_range (RK : Z -> Z) (X i : Z) :
  is_bloque (RK i) -> is_bloque (enc_round RK X i).
Proof.
  intros HR. unfold enc_round. apply lxor_bloque; [|exact HR].
  rewrite MixColumn_code. apply mixColumn_range, zero_bloque.
Qed.

(** A round of the inverse direction undoes a round of the forward
    direction when its key is the forward key put through [mixColumn] and
    the inverse [shuffleCell]. *)
Lemma dec_round_enc_round (RK RK' : Z -> Z) (T a j : Z) :
  is_bloque T -> is_bloque (RK a) ->
  RK' j = Spec.ShuffleCell (Spec.MixColumn (RK a)) true ->
  dec_round RK' (Spec.SubCell (enc_round RK T a)) j = Spec.SubCell T.
Proof.
  intros HT HR HR'. pose proof zero_bloque as H0.
  pose proof (enc_round_range RK T a HR) as HF.
  unfold dec_round. rewrite HR'.
  rewrite (SubCell_code (Spec.SubCell _)), (SubCell_code (enc_round _ _ _)).
  rewrite subCell_subCell by assumption.
  unfold enc_round.
  rewrite !MixColumn_code, !ShuffleCell_code, !SubCell_code.
  rewrite (mixColumn_lxor 0 0 0) by assumption.
  rewrite (shuffleCell_lxor 0 0 0) by assumption.
  rewrite mixColumn_mixColumn
    by (try assumption; apply shuffleCell_range; assumption).
  rewrite shuffleCell_inverse
    by (try assumption; try reflexivity; apply subCell_range; assumption).
  xor_ac.
Qed.

Lemma rounds_enc (U : stack) (WK : Z) (RK : Z -> Z) (S : Z) :
  stack_ok U ->
  rounds U WK RK S 0 =
  Z.lxor (Spec.SubCell (fold_left (enc_round RK) (upto 15) (Z.lxor S WK))) WK.
Proof.
  intros HU. unfold rounds, keyAdd. rewrite subCell_spec by apply HU.
  do 2 f_equal. change (r - 2 + 1) with 15.
  apply fold_left_ext_in. intros X i _. cbn [Z.eqb]. unfold enc_round.
  rewrite subCell_spec, shuffleCell_spec, mixColumn_spec by apply HU.
  reflexivity.
Qed.

Lemma rounds_dec (U : stack) (WK : Z) (RK : Z -> Z) (S inv : Z) :
  stack_ok U -> (inv =? 0) = false ->
  rounds U WK RK S inv =
  Z.lxor (Spec.SubCell (fold_left (dec_round RK) (upto 15) (Z.lxor S WK))) WK.
Proof.
  intros HU Hinv. unfold rounds, keyAdd. rewrite subCell_spec by apply HU.
  do 2 f_equal. change (r - 2 + 1) with 15.
  apply fold_left_ext_in. intros X i _. rewrite Hinv. unfold dec_round.
  rewrite subCell_spec, mixColumn_spec, shuffleCell_spec by apply HU.
  reflexivity.
Qed.

Lemma midori_rounds (U : stack) (S : Z) (Ki : key) (inv : Z) :
  midori U S Ki inv =
  rounds U (fst (keyGen (uRK U) Ki)) (snd (keyGen (uRK U) Ki)) S inv.
Proof.
  unfold midori, rounds. destruct (keyGen (uRK U) Ki) as [WK RK].
  cbn [fst snd]. cbv beta iota zeta. reflexivity.
Qed.

Lemma lxor_cancel_r (a b : Z) : Z.lxor (Z.lxor a b) b = a.
Proof. now rewrite Z.lxor_assoc, Z.lxor_nilpotent, Z.lxor_0_r. Qed.

Lemma SubCell_range (X : Z) : is_bloque (Spec.SubCell X).
Proof. rewrite SubCell_code. apply subCell_range, zero_bloque. Qed.

Lemma SubCell_SubCell (X : Z) : is_bloque X -> Spec.SubCell (Spec.SubCell X) = X.
Proof.
  intros HX. rewrite (SubCell_code (Spec.SubCell X)), (SubCell_code X).
  apply subCell_subCell; trivial; apply zero_bloque.
Qed.

Lemma midori_range (U : stack) (S : Z) (Ki : key) :
  stack_ok U -> is_bloque (fst Ki) -> is_bloque (snd Ki) ->
  is_bloque (midori U S Ki 0).
Proof.
  intros HU H0 H1. rewrite midori_refines by exact HU.
  unfold Spec.midori, Spec.KeyAdd, Spec.WK. cbv zeta.
  apply lxor_bloque; [apply SubCell_range|now apply lxor_bloque].
Qed.

(** Decryption: the inverse direction of the rounds, run with the keys
    [keyGenInv] derives from the forward keys, undoes [midori]. *)
Lemma rounds_keyGenInv_midori (Ue Ud Uk : stack) (R0 RK1 : Z -> Z)
  (tmp S inv : Z) (Ki : key) :
  stack_ok Ue -> stack_ok Ud -> stack_ok Uk ->
  (forall i, is_bloque (R0 i)) ->
  is_bloque (fst Ki) -> is_bloque (snd Ki) -> is_bloque S ->
  (inv =? 0) = false ->
  rounds Ud (fst (keyGen R0 Ki))
         (snd (keyGenInv Uk tmp RK1 (snd (keyGen R0 Ki))))
         (midori Ue S Ki 0) inv = S.
Proof.
  intros HUe HUd HUk HR0 HK0 HK1 HS Hinv.
  rewrite rounds_dec by assumption.
  rewrite midori_rounds, rounds_enc by assumption.
  rewrite !keyGen_WK.
  assert (HWK : is_bloque (Spec.WK (fst Ki) (snd Ki)))
    by (now apply lxor_bloque).
  assert (HT : is_bloque (Z.lxor S (Spec.WK (fst Ki) (snd Ki))))
    by (now apply lxor_bloque).
  rewrite lxor_cancel_r, fold_left_backwards.
  rewrite (fold_left_undo (enc_round (snd (keyGen (uRK Ue) Ki)))
             (dec_round (snd (keyGenInv Uk tmp RK1 (snd (keyGen R0 Ki)))))
             Spec.SubCell is_bloque (fun a => 14 - a) (upto 15)).
  - rewrite SubCell_SubCell by exact HT. apply lxor_cancel_r.
  - intros X a Ha.
    pose proof (upto_range 15) as Hall. rewrite Forall_forall in Hall.
    specialize (Hall a Ha). cbv beta in Hall.
    apply enc_round_range. rewrite keyGen_RK by (trivial; apply HUe).
    apply RK_range.
  - intros X a Ha HX.
    pose proof (upto_range 15) as Hall. rewrite Forall_forall in Hall.
    specialize (Hall a Ha). cbv beta in Hall.
    apply dec_round_enc_round; trivial.
    + rewrite keyGen_RK by (trivial; apply HUe). apply RK_range.
    + rewrite keyGenInv_at, mem_upto by lia.
      replace (14 - (14 - a)) with a by lia.
      rewrite !keyGen_RK by (trivial; apply HUe).
      rewrite shuffleCell_spec, mixColumn_spec by apply HUk. reflexivity.
  - exact HT.
Qed.

End Inverse.

Section FieldKernel.

Lemma testbit_tn2 (a i : Z) : is_tn2 a -> 32 <= i -> Z.testbit a i = false.
Proof. intros Ha Hi. apply (testbit_above 32); trivial; lia. Qed.

Lemma u32_tn2 (a : Z) : is_tn2 a -> u32 a = a.
Proof. intros Ha. apply Z.mod_small. exact Ha. Qed.

Lemma u32_range (a : Z) : is_tn2 (u32 a).
Proof. apply Z.mod_pos_bound. lia. Qed.

Lemma gsuma_lxor (a b : Z) : gsuma a b = u32 (Z.lxor a b).
Proof.
  unfold gsuma. f_equal. xor_ac.
Qed.

Lemma lxor_tn2 (a b : Z) : is_tn2 a -> is_tn2 b -> is_tn2 (Z.lxor a b).
Proof.
  intros Ha Hb.
  assert (H0 : 0 <= Z.lxor a b) by (apply Z.lxor_nonneg; unfold is_tn2 in *; lia).
  split; trivial. apply below_pow2; trivial; [lia|].
  intros i Hi. now rewrite Z.lxor_spec, !testbit_tn2.
Qed.

Lemma gdoble_range (a : Z) : is_tn2 (gdoble a).
Proof. unfold gdoble. apply u32_range. Qed.

Lemma gdoble_bits (a i : Z) :
  0 <= i ->
  Z.testbit (gdoble a) i =
  (i <? 32) && xorb (Z.testbit a (i - 1)) (Z.testbit a 31 && Z.testbit 0x1B i).
Proof.
  intros Hi. rewrite gdoble_eq.
  destruct (Z.testbit a 31); push_testbit; split_bits.
Qed.

Lemma gdoble_lxor (a b : Z) :
  gdoble (Z.lxor a b) = Z.lxor (gdoble a) (gdoble b).
Proof.
  apply Z.bits_inj'. intros i Hi.
  rewrite Z.lxor_spec, !gdoble_bits, !Z.lxor_spec by trivial.
  destruct (i <? 32), (Z.testbit a (i - 1)), (Z.testbit b (i - 1)),
    (Z.testbit a 31), (Z.testbit b 31), (Z.testbit 0x1B i); reflexivity.
Qed.

Lemma gtriple_lxor_gdoble (a : Z) : is_tn2 a -> gtriple a = Z.lxor a (gdoble a).
Proof.
  intros Ha. unfold gtriple. rewrite gsuma_lxor.
  apply u32_tn2, lxor_tn2; [exact Ha|apply gdoble_range].
Qed.

Lemma gtriple_range (a : Z) : is_tn2 (gtriple a).
Proof. unfold gtriple. rewrite gsuma_lxor. apply u32_range. Qed.

Lemma gtriple_lxor (a b : Z) :
  is_tn2 a -> is_tn2 b ->
  gtriple (Z.lxor a b) = Z.lxor (gtriple a) (gtriple b).
Proof.
  intros Ha Hb.
  rewrite !gtriple_lxor_gdoble, gdoble_lxor by (trivial; now apply lxor_tn2).
  xor_ac.
Qed.

Lemma gdoble_inv_bits (d i : Z) :
  is_tn2 d -> 0 <= i ->
  Z.testbit (gdoble_inv d) i =
  if i =? 31 then Z.testbit d 0
  else xorb (Z.testbit d (i + 1)) (Z.testbit d 0 && Z.testbit 0x1B (i + 1)).
Proof.
  intros Hd Hi. unfold gdoble_inv.
  destruct (Z.testbit d 0) eqn:E0; push_testbit;
    rewrite ?Z.pow2_bits_eqb by lia.
  - destruct (Z.eqb_spec 31 i) as [<-|Hne].
    + cbn [Z.eqb]. apply orb_true_r.
    + replace (i =? 31) with false by (symmetry; apply Z.eqb_neq; lia).
      split_bits.
  - destruct (Z.eqb_spec i 31) as [->|Hne]; split_bits.
    apply testbit_tn2; trivial. lia.
Qed.

Lemma gdoble_inv_range (d : Z) : is_tn2 d -> is_tn2 (gdoble_inv d).
Proof.
  intros Hd.
  assert (H0 : 0 <= gdoble_inv d).
  { unfold gdoble_inv. destruct (Z.testbit d 0).
    - apply Z.lor_nonneg. split; [|lia]. apply Z.shiftr_nonneg.
      apply Z.lxor_nonneg. unfold is_tn2 in Hd. lia.
    - apply Z.shiftr_nonneg. apply Hd. }
  split; trivial. apply below_pow2; trivial; [lia|].
  intros i Hi. rewrite gdoble_inv_bits by (trivial; lia).
  replace (i =? 31) with false by (symmetry; apply Z.eqb_neq; lia).
  rewrite (testbit_tn2 d (i + 1)) by (trivial; lia).
  rewrite (testbit_above 5 0x1B (i + 1)) by lia.
  now rewrite andb_false_r.
Qed.

Lemma gdoble_inv_gdoble (a : Z) : is_tn2 a -> gdoble_inv (gdoble a) = a.
Proof.
  intros Ha. apply Z.bits_inj'. intros i Hi.
  rewrite gdoble_inv_bits by (trivial; apply gdoble_range).
  rewrite !gdoble_bits by lia.
  replace (i + 1 - 1) with i by lia. replace (0 - 1) with (-1) by lia.
  rewrite (Z.testbit_neg_r a (-1)) by lia.
  change (Z.testbit 0x1B 0) with true. cbn [Z.ltb Z.compare andb xorb].
  rewrite andb_true_r.
  destruct (Z.eqb_spec i 31) as [->|Hne]; [reflexivity|].
  destruct (Z.ltb_spec (i + 1) 32) as [Hlt|Hge]; cbn [andb].
  - now destruct (Z.testbit a i), (Z.testbit a 31), (Z.testbit 0x1B (i + 1)).
  - rewrite (testbit_above 5 0x1B (i + 1)) by lia.
    rewrite andb_false_r. symmetry. apply testbit_tn2; trivial. lia.
Qed.

Lemma gdoble_gdoble_inv (d : Z) : is_tn2 d -> gdoble (gdoble_inv d) = d.
Proof.
  intros Hd. apply Z.bits_inj'. intros i Hi.
  rewrite gdoble_bits by trivial.
  destruct (Z.ltb_spec i 32) as [Hlt|Hge]; cbn [andb];
    [|symmetry; now apply testbit_tn2].
  rewrite (gdoble_inv_bits d 31) by (trivial; lia). cbn [Z.eqb Pos.eqb].
  destruct (Z.eq_dec i 0) as [->|Hnz].
  - rewrite Z.testbit_neg_r by lia. change (Z.testbit 0x1B 0) with true.
    now rewrite andb_true_r.
  - rewrite gdoble_inv_bits by (trivial; lia).
    replace (i - 1 =? 31) with false by (symmetry; apply Z.eqb_neq; lia).
    replace (i - 1 + 1) with i by lia.
    now destruct (Z.testbit d i), (Z.testbit d 0), (Z.testbit 0x1B i).
Qed.

End FieldKernel.

(** ** The mask schedule of the drivers *)

Section MaskSchedule.

Lemma mask_at_1 (f : FieldState) (beta B : Z) :
  mask f beta B 1 =
  (gdoble (mx2 f), mkFieldState (gdoble (mx2 f)) (mx2x3 f) (mx2x3x3 f)).
Proof. reflexivity. Qed.

Lemma mask_at_2 (f : FieldState) (beta B : Z) :
  mask f beta B 2 =
  (gtriple (mx2 f), mkFieldState (mx2 f) (gtriple (mx2 f)) (mx2x3x3 f)).
Proof. reflexivity. Qed.

Lemma mask_at_3 (f : FieldState) (beta B : Z) :
  mask f beta B 3 =
  (gtriple (gdoble (mx2 f)),
   mkFieldState (gdoble (mx2 f)) (gtriple (gdoble (mx2 f))) (mx2x3x3 f)).
Proof. reflexivity. Qed.

Lemma mask_at_4 (f : FieldState) (beta B : Z) :
  mask f beta B 4 =
  (gtriple (gtriple (mx2 f)),
   mkFieldState (mx2 f) (mx2x3 f) (gtriple (gtriple (mx2 f)))).
Proof. reflexivity. Qed.

Lemma iter_gdoble_succ (n : nat) (b : Z) :
  Nat.iter n gdoble (gdoble b) = Nat.iter (Datatypes.S n) gdoble b.
Proof.
  symmetry. apply Nat.iter_succ_r.
Qed.

Variable pass : token -> driver -> driver.
Variable beta : Z.
Hypothesis pass_exp :
  forall t d, exp (pass t d) = advance (boundary (tok_eol t) (exp d)).
Hypothesis pass_field :
  forall t d, field (pass t d) =
              snd (mask (field d) beta (tok_B t) (boundary (tok_eol t) (exp d))).

Lemma mask_trace_cons (t : token) (ts : list token) (d : driver) :
  exp d < 4 ->
  mask_trace pass beta (t :: ts) d =
  fst (mask (field d) beta (tok_B t) (boundary (tok_eol t) (exp d)))
  :: mask_trace pass beta ts (pass t d).
Proof. intros Hlt. cbn [mask_trace]. now rewrite (proj2 (Z.ltb_lt _ _) Hlt). Qed.

Lemma mask_trace_done (ts : list token) (d : driver) :
  4 <= exp d -> mask_trace pass beta ts d = [].
Proof.
  intros Hge. destruct ts; cbn [mask_trace];
    now rewrite (proj2 (Z.ltb_ge _ _) Hge).
Qed.

Lemma first_line_masks (bs : list Z) (b : Z) :
  forall d, exp d = 1 ->
  exists e, exp e = 3 /\
    mx2 (field e) = Nat.iter (length bs) gdoble (mx2 (field d)) /\
    mx2x3 (field e) = gtriple (mx2 (field e)) /\
    forall rest,
      drive pass (line bs b ++ rest) d = drive pass rest e /\
      mask_trace pass beta (line bs b ++ rest) d =
      doubles (length bs) (mx2 (field d))
      ++ gtriple (Nat.iter (length bs) gdoble (mx2 (field d)))
      :: mask_trace pass beta rest e.
Proof.
  induction bs as [|b0 bs IH]; intros d Hd.
  - exists (pass (mkToken b true) d).
    assert (Hf : field (pass (mkToken b true) d) =
                 mkFieldState (mx2 (field d)) (gtriple (mx2 (field d)))
                              (mx2x3x3 (field d))).
    { rewrite pass_field. cbn [tok_eol tok_B]. rewrite Hd.
      change (boundary true 1) with 2. now rewrite mask_at_2. }
    split; [rewrite pass_exp; cbn [tok_eol]; now rewrite Hd|].
    rewrite Hf. cbn [mx2 mx2x3 length Nat.iter nat_rect doubles app].
    split; [reflexivity|]. split; [reflexivity|].
    intros rest. rewrite line_nil. cbn [app].
    rewrite drive_cons, mask_trace_cons by lia. cbn [tok_eol tok_B].
    rewrite Hd. change (boundary true 1) with 2. rewrite mask_at_2.
    split; reflexivity.
  - assert (Hf : field (pass (mkToken b0 false) d) =
                 mkFieldState (gdoble (mx2 (field d))) (mx2x3 (field d))
                              (mx2x3x3 (field d))).
    { rewrite pass_field. cbn [tok_eol tok_B boundary]. rewrite Hd.
      now rewrite mask_at_1. }
    destruct (IH (pass (mkToken b0 false) d)) as (e & He & Hm & Hm3 & Hrest).
    { rewrite pass_exp. cbn [tok_eol boundary]. now rewrite Hd. }
    rewrite Hf in Hm, Hrest. cbn [mx2] in Hm, Hrest.
    rewrite iter_gdoble_succ in Hm, Hrest.
    exists e. split; [exact He|]. split; [exact Hm|]. split; [exact Hm3|].
    intros rest. rewrite line_cons. cbn [app length doubles].
    rewrite drive_cons, mask_trace_cons by lia.
    cbn [tok_eol tok_B boundary]. rewrite Hd, mask_at_1. cbn [fst].
    destruct (Hrest rest) as (-> & ->). split; reflexivity.
Qed.

Lemma second_line_masks (bs : list Z) (b : Z) :
  forall d, exp d = 3 -> mx2x3 (field d) = gtriple (mx2 (field d)) ->
  exists e, exp e = 5 /\
    mx2 (field e) = Nat.iter (length bs) gdoble (mx2 (field d)) /\
    mx2x3 (field e) = gtriple (mx2 (field e)) /\
    mx2x3x3 (field e) = gtriple (gtriple (mx2 (field e))) /\
    forall rest,
      drive pass (line bs b ++ rest) d = drive pass rest e /\
      mask_trace pass beta (line bs b ++ rest) d =
      map gtriple (doubles (length bs) (mx2 (field d)))
      ++ gtriple (gtriple (Nat.iter (length bs) gdoble (mx2 (field d))))
      :: mask_trace pass beta rest e.
Proof.
  induction bs as [|b0 bs IH]; intros d Hd H3.
  - exists (pass (mkToken b true) d).
    assert (Hf : field (pass (mkToken b true) d) =
                 mkFieldState (mx2 (field d)) (mx2x3 (field d))
                              (gtriple (gtriple (mx2 (field d))))).
    { rewrite pass_field. cbn [tok_eol tok_B]. rewrite Hd.
      change (boundary true 3) with 4. now rewrite mask_at_4. }
    split; [rewrite pass_exp; cbn [tok_eol]; now rewrite Hd|].
    rewrite Hf. cbn [mx2 mx2x3 mx2x3x3 length Nat.iter nat_rect doubles map app].
    split; [reflexivity|]. split; [exact H3|]. split; [reflexivity|].
    intros rest. rewrite line_nil. cbn [app].
    rewrite drive_cons, mask_trace_cons by lia. cbn [tok_eol tok_B].
    rewrite Hd. change (boundary true 3) with 4. rewrite mask_at_4.
    split; reflexivity.
  - assert (Hf : field (pass (mkToken b0 false) d) =
                 mkFieldState (gdoble (mx2 (field d)))
                              (gtriple (gdoble (mx2 (field d))))
                              (mx2x3x3 (field d))).
    { rewrite pass_field. cbn [tok_eol tok_B boundary]. rewrite Hd.
      now rewrite mask_at_3. }
    destruct (IH (pass (mkToken b0 false) d))
      as (e & He & Hm & Hm3 & Hm33 & Hrest).
    { rewrite pass_exp. cbn [tok_eol boundary]. now rewrite Hd. }
    { now rewrite Hf. }
    rewrite Hf in Hm, Hrest. cbn [mx2] in Hm, Hrest.
    rewrite iter_gdoble_succ in Hm, Hrest.
    exists e. split; [exact He|]. split; [exact Hm|]. split; [exact Hm3|].
    split; [exact Hm33|].
    intros rest. rewrite line_cons. cbn [app length doubles map].
    rewrite drive_cons, mask_trace_cons by lia.
    cbn [tok_eol tok_B boundary]. rewrite Hd, mask_at_3. cbn [fst].
    destruct (Hrest rest) as (-> & ->). split; reflexivity.
Qed.

Lemma two_lines_masks (A : list Z) (a : Z) (M : list Z) (m : Z)
  (rest : list token) (d : driver) :
  exp d = 1 ->
  exists e,
    drive pass (line A a ++ line M m ++ rest) d = Some e /\
    mx2 (field e) = Nat.iter (length A + length M) gdoble (mx2 (field d)) /\
    mx2x3 (field e) = gtriple (mx2 (field e)) /\
    mx2x3x3 (field e) = gtriple (gtriple (mx2 (field e))) /\
    mask_trace pass beta (line A a ++ line M m ++ rest) d =
    doubles (length A) (mx2 (field d))
    ++ gtriple (Nat.iter (length A) gdoble (mx2 (field d)))
    :: map gtriple (doubles (length M) (Nat.iter (length A) gdoble (mx2 (field d))))
    ++ [gtriple (gtriple (Nat.iter (length A + length M) gdoble (mx2 (field d))))].
Proof.
  intros Hd.
  destruct (first_line_masks A a d Hd) as (e1 & He1 & Hm1 & H31 & Hr1).
  destruct (second_line_masks M m e1 He1 H31)
    as (e2 & He2 & Hm2 & H32 & H332 & Hr2).
  assert (Hit : Nat.iter (length A + length M) gdoble (mx2 (field d)) =
                Nat.iter (length M) gdoble (mx2 (field e1))).
  { rewrite Hm1, Nat.add_comm. apply Nat.iter_add. }
  exists e2.
  destruct (Hr1 (line M m ++ rest)) as (-> & ->).
  destruct (Hr2 rest) as (-> & ->).
  rewrite drive_done, mask_trace_done by lia.
  rewrite Hit, <- Hm1.
  split; [reflexivity|]. split; [exact Hm2|]. split; [exact H32|].
  split; [exact H332|]. reflexivity.
Qed.

End MaskSchedule.

Lemma COFB_pass_field (U : stack) (K : key) (beta : Z) (t : token) (d : driver) :
  field (COFB_pass U K beta t d) =
  snd (mask (field d) beta (tok_B t) (boundary (tok_eol t) (exp d))).
Proof. rewrite COFB_pass_eq. reflexivity. Qed.

Lemma dCOFB_pass_field (U : stack) (K : key) (beta : Z) (t : token) (d : driver) :
  field (dCOFB_pass U K beta t d) =
  snd (mask (field d) beta (tok_B t) (boundary (tok_eol t) (exp d))).
Proof. rewrite dCOFB_pass_eq. reflexivity. Qed.

(** ** What a driver prints, block by block *)

Section Printing.

Variable pass : token -> driver -> driver.
Hypothesis pass_exp :
  forall t d, exp (pass t d) = advance (boundary (tok_eol t) (exp d)).
Hypothesis pass_printed :
  forall t d, printed (pass t d) =
              if 2 <? boundary (tok_eol t) (exp d)
              then printed d ++ [Z.lxor (Y d) (tok_B t)] else printed d.

Lemma silent_line (bs : list Z) (b : Z) :
  forall d, exp d = 1 ->
  exists e, exp e = 3 /\ printed e = printed d /\
    forall rest, drive pass (line bs b ++ rest) d = drive pass rest e.
Proof.
  induction bs as [|b0 bs IH]; intros d Hd.
  - exists (pass (mkToken b true) d).
    split; [rewrite pass_exp; cbn [tok_eol]; now rewrite Hd|].
    split; [rewrite pass_printed; cbn [tok_eol]; now rewrite Hd|].
    intros rest. rewrite line_nil. cbn [app]. apply drive_cons. lia.
  - destruct (IH (pass (mkToken b0 false) d)) as (e & He & Hp & Hrest).
    { rewrite pass_exp. cbn [tok_eol boundary]. now rewrite Hd. }
    exists e. split; [exact He|]. split.
    + rewrite Hp, pass_printed. cbn [tok_eol boundary]. now rewrite Hd.
    + intros rest. rewrite line_cons. cbn [app].
      rewrite drive_cons by lia. apply Hrest.
Qed.

Lemma printing_blocks (bs : list Z) :
  forall d, exp d = 3 ->
  exists e C, exp e = 3 /\ printed e = printed d ++ C /\
    length C = length bs /\
    forall rest,
      drive pass (map (fun x => mkToken x false) bs ++ rest) d =
      drive pass rest e.
Proof.
  induction bs as [|b0 bs IH]; intros d Hd.
  - exists d, []. rewrite app_nil_r. repeat split; trivial.
  - destruct (IH (pass (mkToken b0 false) d)) as (e & C & He & Hp & HC & Hrest).
    { rewrite pass_exp. cbn [tok_eol boundary]. now rewrite Hd. }
    exists e, (Z.lxor (Y d) b0 :: C). split; [exact He|]. split.
    + rewrite Hp, pass_printed. cbn [tok_eol tok_B boundary]. rewrite Hd.
      cbn [Z.ltb Z.compare Pos.compare Pos.compare_cont].
      now rewrite <- app_assoc.
    + split; [cbn [length]; now rewrite HC|].
      intros rest. cbn [map app]. rewrite drive_cons by lia. apply Hrest.
Qed.

Lemma last_block (b : Z) (rest : list token) (d : driver) :
  exp d = 3 ->
  exists g, drive pass (line [] b ++ rest) d = Some g /\
            printed g = printed d ++ [Z.lxor (Y d) b].
Proof.
  intros Hd. exists (pass (mkToken b true) d).
  rewrite line_nil. cbn [app]. rewrite drive_cons by lia. split.
  - apply drive_done. rewrite pass_exp. cbn [tok_eol]. rewrite Hd.
    change (advance (boundary true 3)) with 5. lia.
  - rewrite pass_printed. cbn [tok_eol tok_B]. now rewrite Hd.
Qed.

Lemma line_app (bs bs' : list Z) (b : Z) :
  line (bs ++ bs') b = map (fun x => mkToken x false) bs ++ line bs' b.
Proof. unfold line. now rewrite map_app, <- app_assoc. Qed.

Lemma second_line_printed (bs : list Z) (b : Z) (rest : list token) (d : driver) :
  exp d = 3 ->
  exists g C c, drive pass (line bs b ++ rest) d = Some g /\
    printed g = printed d ++ C ++ [c] /\ length C = length bs.
Proof.
  intros Hd.
  destruct (printing_blocks bs d Hd) as (e & C & He & Hp & HC & Hrest).
  destruct (last_block b rest e He) as (g & Hg & Hpg).
  exists g, C, (Z.lxor (Y e) b).
  rewrite <- (app_nil_r bs) at 1. rewrite line_app, <- app_assoc, Hrest.
  split; [exact Hg|]. split; [|exact HC].
  now rewrite Hpg, Hp, <- app_assoc.
Qed.

(** The run on two lines does not look at what follows them. *)
Lemma two_lines_only (A : list Z) (a : Z) (M : list Z) (m : Z) (d : driver) :
  exp d = 1 ->
  exists g, forall rest,
    drive pass (line A a ++ line M m ++ rest) d = Some g.
Proof.
  intros Hd.
  destruct (silent_line A a d Hd) as (e1 & He1 & _ & H1).
  destruct (printing_blocks M e1 He1) as (e2 & C & He2 & _ & _ & H2).
  exists (pass (mkToken m true) e2). intros rest.
  rewrite H1. rewrite <- (app_nil_r M). rewrite line_app, <- app_assoc, H2.
  rewrite line_nil. cbn [app]. rewrite drive_cons by lia.
  apply drive_done. rewrite pass_exp. cbn [tok_eol]. rewrite He2.
  change (advance (boundary true 3)) with 5. lia.
Qed.

(** The blocks printed for a prefix of the second line do not depend on
    the rest of the input. *)
Lemma prefix_printed (A : list Z) (a : Z) (M1 M2 M2' : list Z) (m m' : Z)
  (rest rest' : list token) (d : driver) :
  exp d = 1 ->
  exists P cs cs' g g',
    length P = length M1 /\
    drive pass (line A a ++ line (M1 ++ M2) m ++ rest) d = Some g /\
    printed g = printed d ++ P ++ cs /\
    drive pass (line A a ++ line (M1 ++ M2') m' ++ rest') d = Some g' /\
    printed g' = printed d ++ P ++ cs'.
Proof.
  intros Hd.
  destruct (silent_line A a d Hd) as (e1 & He1 & Hp1 & H1).
  destruct (printing_blocks M1 e1 He1) as (e2 & P & He2 & Hp2 & HP & H2).
  destruct (second_line_printed M2 m rest e2 He2) as (g & C & c & Hg & Hpg & _).
  destruct (second_line_printed M2' m' rest' e2 He2)
    as (g' & C' & c' & Hg' & Hpg' & _).
  exists P, (C ++ [c]), (C' ++ [c']), g, g'.
  rewrite !H1, !line_app, <- !app_assoc, !H2.
  split; [exact HP|]. split; [exact Hg|]. split.
  - now rewrite Hpg, Hp2, Hp1, <- app_assoc.
  - split; [exact Hg'|]. now rewrite Hpg', Hp2, Hp1, <- app_assoc.
Qed.

(** A change of the last block of the second line shows in the last
    printed block only, bit for bit. *)
Lemma last_block_xor (A : list Z) (a : Z) (M : list Z) (m delta : Z)
  (rest rest' : list token) (d : driver) :
  exp d = 1 ->
  exists P p g g',
    length P = length M /\
    drive pass (line A a ++ line M m ++ rest) d = Some g /\
    printed g = printed d ++ P ++ [p] /\
    drive pass (line A a ++ line M (Z.lxor m delta) ++ rest') d = Some g' /\
    printed g' = printed d ++ P ++ [Z.lxor p delta].
Proof.
  intros Hd.
  destruct (silent_line A a d Hd) as (e1 & He1 & Hp1 & H1).
  destruct (printing_blocks M e1 He1) as (e2 & P & He2 & Hp2 & HP & H2).
  destruct (last_block m rest e2 He2) as (g & Hg & Hpg).
  destruct (last_block (Z.lxor m delta) rest' e2 He2) as (g' & Hg' & Hpg').
  exists P, (Z.lxor (Y e2) m), g, g'.
  rewrite !H1. rewrite <- (app_nil_r M).
  rewrite !line_app, <- !app_assoc, !H2.
  split; [now rewrite app_nil_r|]. split; [exact Hg|]. split.
  - now rewrite Hpg, Hp2, Hp1, <- app_assoc.
  - split; [exact Hg'|].
    rewrite Hpg', Hp2, Hp1, <- app_assoc. do 3 f_equal.
    now rewrite Z.lxor_assoc.
Qed.

End Printing.

Lemma COFB_pass_printed (U : stack) (K : key) (beta : Z) (t : token) (d : driver) :
  printed (COFB_pass U K beta t d) =
  if 2 <? boundary (tok_eol t) (exp d)
  then printed d ++ [Z.lxor (Y d) (tok_B t)] else printed d.
Proof. rewrite COFB_pass_eq. reflexivity. Qed.

Lemma dCOFB_pass_printed (U : stack) (K : key) (beta : Z) (t : token) (d : driver) :
  printed (dCOFB_pass U K beta t d) =
  if 2 <? boundary (tok_eol t) (exp d)
  then printed d ++ [Z.lxor (Y d) (tok_B t)] else printed d.
Proof. rewrite dCOFB_pass_eq. reflexivity. Qed.

(** ** misc.c *)

Section Misc.

Lemma shiftr8 (a k : Z) :
  0 <= k ->
  Z.shiftr (Z.shiftr (Z.shiftr (Z.shiftr (Z.shiftr (Z.shiftr
    (Z.shiftr (Z.shiftr a k) k) k) k) k) k) k) k = Z.shiftr a (8 * k).
Proof.
  intros Hk. rewrite !Z.shiftr_shiftr by lia. f_equal. lia.
Qed.

Lemma upto_succ (n : nat) :
  upto (Z.of_nat (Datatypes.S n)) = upto (Z.of_nat n) ++ [Z.of_nat n].
Proof.
  unfold upto. rewrite !Nat2Z.id, seq_S, map_app. reflexivity.
Qed.

(** The content of [b] after the passes [0 .. n-1] of [reverse]. *)
Lemma reverse_passes (a : Z) (n : nat) :
  (n <= 8)%nat ->
  forall i, 0 <= i ->
    Z.testbit
      (fold_left (fun b i =>
         Z.lxor (shl64 b 0x08)
           (Z.land
              (Z.shiftr (Z.shiftr (Z.shiftr (Z.shiftr (Z.shiftr (Z.shiftr
                 (Z.shiftr (Z.shiftr a i) i) i) i) i) i) i) i)
              0xff))
         (upto (Z.of_nat n)) 0) i =
    (i <? 8 * Z.of_nat n) &&
    Z.testbit a (8 * (Z.of_nat n - 1 - i / 8) + i mod 8).
Proof.
  induction n as [|n IH]; intros Hn i Hi.
  - cbn [upto Z.of_nat Z.to_nat seq map fold_left].
    rewrite Z.testbit_0_l. split_cmp.
  - rewrite upto_succ, fold_left_app. cbn [fold_left].
    rewrite shiftr8 by lia. change 0xff with (Z.ones 8).
    unfold shl64. push_testbit.
    destruct (Z.ltb_spec i 8) as [Hlt|Hge].
    + rewrite (Z.testbit_neg_r _ (i - 0x08)) by lia.
      rewrite Z.div_small, Z.mod_small by lia.
      split_bits. f_equal. lia.
    + rewrite IH by lia.
      replace ((i - 0x08) / 8) with (i / 8 - 1)
        by (Z.div_mod_to_equations; lia).
      replace ((i - 0x08) mod 8) with (i mod 8)
        by (Z.div_mod_to_equations; lia).
      split_bits. f_equal. lia.
Qed.

Lemma reverse_bits (a i : Z) :
  0 <= i ->
  Z.testbit (reverse a) i =
  (i <? 64) && Z.testbit a (8 * (7 - i / 8) + i mod 8).
Proof.
  intros Hi. unfold reverse. cbv zeta.
  change (upto 0x08) with (upto (Z.of_nat 8)).
  rewrite reverse_passes by (trivial; lia). reflexivity.
Qed.

Lemma reverse_range (a : Z) : is_bloque (reverse a).
Proof.
  assert (H0 : 0 <= reverse a).
  { unfold reverse. cbv zeta. change (upto 0x08) with [0; 1; 2; 3; 4; 5; 6; 7].
    cbn [fold_left].
    repeat (apply Z.lxor_nonneg; split; intros _;
            [apply Z.land_nonneg; right; lia
            |unfold shl64, u64; apply Z.mod_pos_bound; lia]). }
  split; trivial. apply below_pow2; trivial; [lia|].
  intros i Hi. rewrite reverse_bits by lia. split_bits.
Qed.

Lemma reverse_reverse (a : Z) : is_bloque a -> reverse (reverse a) = a.
Proof.
  intros Ha. apply Z.bits_inj'. intros i Hi.
  rewrite reverse_bits by trivial.
  destruct (Z.ltb_spec i 64) as [Hlt|Hge]; cbn [andb];
    [|symmetry; now apply testbit_bloque].
  assert (Hq : 0 <= i / 8 < 8) by (Z.div_mod_to_equations; lia).
  assert (Hr : 0 <= i mod 8 < 8) by (apply Z.mod_pos_bound; lia).
  rewrite reverse_bits by lia.
  replace ((8 * (7 - i / 8) + i mod 8) / 8) with (7 - i / 8)
    by (Z.div_mod_to_equations; lia).
  replace ((8 * (7 - i / 8) + i mod 8) mod 8) with (i mod 8)
    by (Z.div_mod_to_equations; lia).
  replace (8 * (7 - (7 - i / 8)) + i mod 8) with i
    by (Z.div_mod_to_equations; lia).
  split_bits.
Qed.

Lemma hayNL_loop_spec (a : list Z) :
  forall t, (length a <= t)%nat ->
  hayNL_loop a t = if existsb (Z.eqb 10) a then 1 else 0.
Proof.
  induction a as [|c a IH]; intros t Ht.
  - now destruct t.
  - destruct t as [|t]; [cbn in Ht; lia|].
    cbn [hayNL_loop existsb]. rewrite (Z.eqb_sym 10 c).
    destruct (c =? 10); cbn [orb]; trivial.
    apply IH. cbn in Ht. lia.
Qed.

End Misc.

Section BinaryText.

Lemma impBin_loop (l : list Z) :
  forall num a,
    fold_left (fun (st : Z * list Z) (i : Z) =>
      (Z.shiftr (fst st) 1,
       snd st ++ [Z.lor (Z.land (fst st) 0x01) 0x30; 44; 32]))
    l (num, a) =
    (Nat.iter (length l) (fun x => Z.shiftr x 1) num,
     a ++ bit_text num (length l)).
Proof.
  induction l as [|i l IH]; intros num a.
  - cbn [fold_left length Nat.iter nat_rect bit_text]. now rewrite app_nil_r.
  - cbn [fold_left fst snd length bit_text]. rewrite IH.
    rewrite Nat.iter_succ_r, <- app_assoc. reflexivity.
Qed.

Lemma impBin_text (num : Z) :
  impBin num =
  [91; 32] ++ bit_text num 63
  ++ [Z.lxor (Z.land (Nat.iter 63 (fun x => Z.shiftr x 1) num) 0x01) 0x30; 32; 93].
Proof.
  unfold impBin. cbv zeta.
  change (fold_left _ (upto 63) (num, [91; 32]))
    with (fold_left (fun (st : Z * list Z) (i : Z) =>
            (Z.shiftr (fst st) 1,
             snd st ++ [Z.lor (Z.land (fst st) 0x01) 0x30; 44; 32]))
          (upto 63) (num, [91; 32])).
  rewrite impBin_loop. cbn [fst snd].
  change (length (upto 63)) with 63%nat. now rewrite <- app_assoc.
Qed.

Lemma bit_text_length (num : Z) (n : nat) :
  length (bit_text num n) = (3 * n)%nat.
Proof.
  revert num. induction n as [|n IH]; intros num; [reflexivity|].
  cbn [bit_text length app]. rewrite IH. lia.
Qed.

Lemma impBin_length (num : Z) : length (impBin num) = 194%nat.
Proof.
  rewrite impBin_text. rewrite !length_app, bit_text_length. reflexivity.
Qed.

Lemma leeBin_fold_right (a : list Z) :
  (length a < 256)%nat -> leeBin a = fold_right leeBin_step 0 a.
Proof.
  intros Hlen. unfold leeBin. cbv zeta.
  unfold u8 at 1. rewrite Z.mod_small by lia. rewrite Nat2Z.id, firstn_all.
  rewrite <- fold_left_rev_right, rev_involutive. reflexivity.
Qed.

Lemma land_1_cases (x : Z) : Z.land x 1 = 0 \/ Z.land x 1 = 1.
Proof. pose proof (land_1_range x). lia. Qed.

Lemma shift_out_in (num : Z) :
  is_tn2 num ->
  u32 (Z.lor (shl32 (Z.shiftr num 1) 1) (Z.land num 1)) = num.
Proof.
  intros Hn. apply Z.bits_inj'. intros i Hi.
  unfold shl32. change (Z.land num 1) with (Z.land num (Z.ones 1)).
  push_testbit. replace (i - 1 + 1) with i by lia.
  destruct (Z.ltb_spec i 32) as [Hlt|Hge]; cbn [andb];
    [|symmetry; now apply testbit_tn2].
  split_bits.
Qed.

Lemma shiftr_tn2 (num : Z) : is_tn2 num -> is_tn2 (Z.shiftr num 1).
Proof.
  intros Hn. rewrite Z.shiftr_div_pow2 by lia. change (2 ^ 1) with 2.
  unfold is_tn2 in *. split; [apply Z.div_pos; lia|].
  apply Z.div_lt_upper_bound; lia.
Qed.

Lemma leeBin_step_bit (x v : Z) :
  x = 0 \/ x = 1 ->
  leeBin_step (Z.lor x 0x30) v = u32 (Z.lor (shl32 v 1) x).
Proof. intros [-> | ->]; reflexivity. Qed.

(** Reading back the text of [n] bits: if what follows the text reads as
    [num >> n], the whole reads as [num]. *)
Lemma leeBin_bit_text (n : nat) :
  forall num tail, is_tn2 num ->
    fold_right leeBin_step 0 tail = Nat.iter n (fun x => Z.shiftr x 1) num ->
    fold_right leeBin_step 0 (bit_text num n ++ tail) = num.
Proof.
  induction n as [|n IH]; intros num tail Hn Htail.
  - exact Htail.
  - cbn [bit_text app fold_right].
    rewrite Nat.iter_succ_r in Htail.
    rewrite (IH (Z.shiftr num 1) tail (shiftr_tn2 num Hn) Htail).
    change (leeBin_step 32 (Z.shiftr num 1)) with (Z.shiftr num 1).
    change (leeBin_step 44 (Z.shiftr num 1)) with (Z.shiftr num 1).
    rewrite leeBin_step_bit by apply land_1_cases.
    now apply shift_out_in.
Qed.

Lemma iter_shiftr (n : nat) (num : Z) :
  Nat.iter n (fun x => Z.shiftr x 1) num = Z.shiftr num (Z.of_nat n).
Proof.
  induction n as [|n IH]; [now rewrite Z.shiftr_0_r|].
  cbn [Nat.iter nat_rect]. fold (Nat.iter n (fun x => Z.shiftr x 1) num).
  rewrite IH, Z.shiftr_shiftr by lia. f_equal. lia.
Qed.

Lemma leeBin_impBin (num : Z) : is_tn2 num -> leeBin (impBin num) = num.
Proof.
  intros Hn. rewrite leeBin_fold_right by (rewrite impBin_length; lia).
  rewrite impBin_text. cbn [app fold_right].
  unfold leeBin_step at 1 2. cbn [Z.eqb Pos.eqb orb].
  apply leeBin_bit_text; trivial.
  assert (E63 : Nat.iter 63 (fun x => Z.shiftr x 1) num = 0).
  { rewrite iter_shiftr, Z.shiftr_div_pow2 by lia.
    apply Z.div_small. unfold is_tn2 in Hn. change (Z.of_nat 63) with 63. lia. }
  rewrite E63. reflexivity.
Qed.

End BinaryText.

(** ** The two drivers one after the other *)

Section Program.

Lemma COFB_dCOFB_runs (U U' : stack) (K : key) (N T : Z) (f f' : FieldState)
  (A : list Z) (a : Z) (M : list Z) (m : Z) :
  stack_ok U -> stack_ok U' ->
  exists C c g g',
    length C = length M /\ printed g = C ++ [c] /\
    printed g' = M ++ [m] /\ Y g = Y g' /\
    forall rest rest',
      COFB_run U K N f (line A a ++ line M m ++ rest) = Some g /\
      dCOFB_run U' K N T f' (line A a ++ line C c ++ rest') = Some g'.
Proof.
  intros HU HU'. unfold COFB_run, dCOFB_run.
  destruct (COFB_init_view U U' K N f f' HU HU') as (Hb & (Hs & Hp)).
  pose proof (surjective_pairing (COFB_init U K N f)) as E.
  pose proof (surjective_pairing (COFB_init U' K N f')) as E'.
  rewrite <- Hb in E'.
  set (beta := fst (COFB_init U K N f)) in *.
  set (d := snd (COFB_init U K N f)) in *.
  set (d' := snd (COFB_init U' K N f')) in *.
  assert (Hd : exp d = 1) by reflexivity.
  assert (Hpd : printed d = []) by reflexivity.
  assert (Hpd' : printed d' = []) by reflexivity.
  rewrite E, E'. clearbody d d' beta.
  destruct (first_line U U' K beta HU HU' A a d d' Hs Hd)
    as (e & e' & Hs1 & He1 & Hp1 & Hp1' & Hfirst).
  destruct (second_line U U' K beta HU HU' M m e e' Hs1 He1)
    as (C & c & g & g' & HC & Hyy & Hp2 & Hp2' & Hsecond).
  exists C, c, g, g'. split; [exact HC|].
  split; [rewrite Hp2, Hp1, Hpd; reflexivity|].
  split; [rewrite Hp2', Hp1', Hpd'; reflexivity|].
  split; [exact Hyy|].
  intros rest rest'.
  destruct (Hfirst (line M m ++ rest) (line C c ++ rest')) as (-> & ->).
  exact (Hsecond rest rest').
Qed.

Lemma main_two_lines (U U' : stack) (K : key) (N : Z)
  (A : list Z) (a : Z) (M : list Z) (m : Z) :
  stack_ok U -> stack_ok U' ->
  exists C c T,
    length C = length M /\
    forall rest rest',
      main U U' K N (line A a ++ line M m ++ rest)
                    (line A a ++ line C c ++ rest')
      = Some ((C ++ [c], T), (M ++ [m], T)).
Proof.
  intros HU HU'.
  destruct (COFB_dCOFB_runs U U' K N 0 fresh fresh A a M m HU HU')
    as (C1 & c1 & g1 & g1' & _ & _ & _ & _ & Hrun1).
  destruct (COFB_dCOFB_runs U U' K N (Y g1) fresh (field g1) A a M m HU HU')
    as (C & c & g & g' & HC & Hp & Hp' & Hyy & Hrun).
  assert (Hg : g = g1).
  { destruct (Hrun1 [] []) as (H1 & _). destruct (Hrun [] []) as (H2 & _).
    rewrite H1 in H2. now inversion H2. }
  subst g. exists C, c, (Y g1). split; [exact HC|].
  intros rest rest'. unfold main.
  destruct (Hrun rest rest') as (-> & H2). cbv zeta. rewrite H2.
  unfold observe. now rewrite Hp, Hp', <- Hyy.
Qed.

End Program.

(** ** Widths of what the drivers give out *)

Section Widths.

Lemma drive_keeps (pass : token -> driver -> driver) (P : driver -> Prop)
  (ts : list token) :
  (forall t d, In t ts -> P d -> P (pass t d)) ->
  forall d g, P d -> drive pass ts d = Some g -> P g.
Proof.
  induction ts as [|t ts IH]; intros Hpass d g Hd Hrun; cbn [drive] in Hrun;
    destruct (exp d <? 4); try discriminate;
    try (injection Hrun as <-; exact Hd).
  apply (IH (fun t' d' Hin => Hpass t' d' (or_intror Hin)) (pass t d) g);
    trivial.
  apply Hpass; trivial. now left.
Qed.

Lemma COFB_pass_width (U : stack) (K : key) (beta : Z) (t : token) (d : driver) :
  stack_ok U -> is_bloque (fst K) -> is_bloque (snd K) ->
  is_bloque (tok_B t) -> in_width d -> in_width (COFB_pass U K beta t d).
Proof.
  intros HU H0 H1 Ht (Hy & Hp). rewrite COFB_pass_eq. cbv zeta.
  unfold in_width. cbn [Y printed]. split; [now apply midori_range|].
  destruct (2 <? boundary (tok_eol t) (exp d)); trivial.
  apply Forall_app. split; trivial.
  constructor; [now apply lxor_bloque|constructor].
Qed.

Lemma dCOFB_pass_width (U : stack) (K : key) (beta : Z) (t : token) (d : driver) :
  stack_ok U -> is_bloque (fst K) -> is_bloque (snd K) ->
  is_bloque (tok_B t) -> in_width d -> in_width (dCOFB_pass U K beta t d).
Proof.
  intros HU H0 H1 Ht (Hy & Hp). rewrite dCOFB_pass_eq. cbv zeta.
  unfold in_width. cbn [Y printed]. split; [now apply midori_range|].
  destruct (2 <? boundary (tok_eol t) (exp d)); trivial.
  apply Forall_app. split; trivial.
  constructor; [now apply lxor_bloque|constructor].
Qed.

Lemma COFB_init_width (U : stack) (K : key) (N : Z) (f : FieldState) :
  stack_ok U -> is_bloque (fst K) -> is_bloque (snd K) ->
  in_width (snd (COFB_init U K N f)).
Proof.
  intros HU H0 H1. unfold COFB_init, in_width. cbv zeta. cbn [snd Y printed].
  split; [now apply midori_range|constructor].
Qed.

Lemma COFB_run_width (U : stack) (K : key) (N : Z) (f : FieldState)
  (ts : list token) (g : driver) :
  stack_ok U -> is_bloque (fst K) -> is_bloque (snd K) ->
  Forall (fun t => is_bloque (tok_B t)) ts ->
  COFB_run U K N f ts = Some g -> in_width g.
Proof.
  intros HU H0 H1 Hts. unfold COFB_run.
  pose proof (COFB_init_width U K N f HU H0 H1) as Hi.
  rewrite (surjective_pairing (COFB_init U K N f)).
  revert Hi. generalize (snd (COFB_init U K N f)) as d.
  generalize (fst (COFB_init U K N f)) as beta. intros beta d Hi.
  apply drive_keeps; trivial. intros t d0 Hin Hd0.
  rewrite Forall_forall in Hts. apply COFB_pass_width; auto.
Qed.

Lemma dCOFB_run_width (U : stack) (K : key) (N T : Z) (f : FieldState)
  (ts : list token) (g : driver) :
  stack_ok U -> is_bloque (fst K) -> is_bloque (snd K) ->
  Forall (fun t => is_bloque (tok_B t)) ts ->
  dCOFB_run U K N T f ts = Some g -> in_width g.
Proof.
  intros HU H0 H1 Hts. unfold dCOFB_run.
  pose proof (COFB_init_width U K N f HU H0 H1) as Hi.
  rewrite (surjective_pairing (COFB_init U K N f)).
  revert Hi. generalize (snd (COFB_init U K N f)) as d.
  generalize (fst (COFB_init U K N f)) as beta. intros beta d Hi.
  apply drive_keeps; trivial. intros t d0 Hin Hd0.
  rewrite Forall_forall in Hts. apply dCOFB_pass_width; auto.
Qed.

End Widths.

Lemma mulGY_lxor (a b : Z) :
  is_bloque a -> is_bloque b -> mulGY (Z.lxor a b) = Z.lxor (mulGY a) (mulGY b).
Proof.
  intros Ha Hb. apply Z.bits_inj'. intros i Hi.
  rewrite Z.lxor_spec, !mulGY_bits, !Z.lxor_spec
    by (trivial; now apply lxor_bloque).
  destruct (i <? 16), (i <? 64), (Z.testbit a (i + 48)), (Z.testbit a i),
    (Z.testbit b (i + 48)), (Z.testbit b i), (Z.testbit a (i - 16)),
    (Z.testbit b (i - 16)); reflexivity.
Qed.

(** * Further properties of the sources *)

(** X1. [subCell] is an involution on 64-bit blocks: applied twice it gives
    the block back, whatever its uninitialised local [SC] contained. *)
Theorem subCell_involution (SC SC' S : Z) :
  is_bloque SC -> is_bloque SC' -> is_bloque S ->
  subCell SC' (subCell SC S) = S.
Proof. exact (subCell_subCell SC SC' S). Qed.

Lemma subCell_involution_witness :
  is_bloque 0x1234 /\ is_bloque 0xffffffffffffffff /\
  is_bloque 0x0123456789ABCDEF /\
  subCell 0xffffffffffffffff (subCell 0x1234 0x0123456789ABCDEF)
  = 0x0123456789ABCDEF.
Proof.
  assert (H1 : is_bloque 0x1234) by (unfold is_bloque; lia).
  assert (H2 : is_bloque 0xffffffffffffffff) by (unfold is_bloque; lia).
  assert (H3 : is_bloque 0x0123456789ABCDEF) by (unfold is_bloque; lia).
  split; [exact H1|]. split; [exact H2|]. split; [exact H3|].
  exact (subCell_involution 0x1234 0xffffffffffffffff 0x0123456789ABCDEF
           H1 H2 H3).
Defined.

(** X2. [shuffleCell] with [inv = 0] and [shuffleCell] with [inv = -1]
    (255 once stored in the [byte] parameter) undo each other on 64-bit
    blocks, in either order. *)
Theorem shuffleCell_round_trip (SH SH' S : Z) :
  is_bloque SH -> is_bloque SH' -> is_bloque S ->
  shuffleCell SH' (shuffleCell SH S 0) (u8 (-1)) = S /\
  shuffleCell SH' (shuffleCell SH S (u8 (-1))) 0 = S.
Proof.
  intros H H' HS. split; apply shuffleCell_inverse; trivial.
Qed.

Lemma shuffleCell_round_trip_witness :
  is_bloque 0x1234 /\ is_bloque 0xffffffffffffffff /\
  is_bloque 0x0123456789ABCDEF /\
  shuffleCell 0xffffffffffffffff (shuffleCell 0x1234 0x0123456789ABCDEF 0)
              (u8 (-1)) = 0x0123456789ABCDEF /\
  shuffleCell 0xffffffffffffffff
              (shuffleCell 0x1234 0x0123456789ABCDEF (u8 (-1))) 0
  = 0x0123456789ABCDEF.
Proof.
  assert (H1 : is_bloque 0x1234) by (unfold is_bloque; lia).
  assert (H2 : is_bloque 0xffffffffffffffff) by (unfold is_bloque; lia).
  assert (H3 : is_bloque 0x0123456789ABCDEF) by (unfold is_bloque; lia).
  split; [exact H1|]. split; [exact H2|]. split; [exact H3|].
  exact (shuffleCell_round_trip 0x1234 0xffffffffffffffff
           0x0123456789ABCDEF H1 H2 H3).
Defined.

(** X3. [mixColumn] is an involution on 64-bit blocks. *)
Theorem mixColumn_involution (MC MC' S : Z) :
  is_bloque MC -> is_bloque MC' -> is_bloque S ->
  mixColumn MC' (mixColumn MC S) = S.
Proof. exact (mixColumn_mixColumn MC MC' S). Qed.

Lemma mixColumn_involution_witness :
  is_bloque 0x1234 /\ is_bloque 0xffffffffffffffff /\
  is_bloque 0x0123456789ABCDEF /\
  mixColumn 0xffffffffffffffff (mixColumn 0x1234 0x0123456789ABCDEF)
  = 0x0123456789ABCDEF.
Proof.
  assert (H1 : is_bloque 0x1234) by (unfold is_bloque; lia).
  assert (H2 : is_bloque 0xffffffffffffffff) by (unfold is_bloque; lia).
  assert (H3 : is_bloque 0x0123456789ABCDEF) by (unfold is_bloque; lia).
  split; [exact H1|]. split; [exact H2|]. split; [exact H3|].
  exact (mixColumn_involution 0x1234 0xffffffffffffffff 0x0123456789ABCDEF
           H1 H2 H3).
Defined.

(** X4. [mixColumn] and [shuffleCell] are linear for the key addition:
    the image of [A xor B] is the xor of the images of [A] and [B]. *)
Theorem linear_layers (J J1 J2 A B inv : Z) :
  is_bloque J -> is_bloque J1 -> is_bloque J2 ->
  mixColumn J (keyAdd A B) = keyAdd (mixColumn J1 A) (mixColumn J2 B) /\
  shuffleCell J (keyAdd A B) inv =
  keyAdd (shuffleCell J1 A inv) (shuffleCell J2 B inv).
Proof.
  intros H H1 H2. unfold keyAdd.
  split; [now apply mixColumn_lxor|now apply shuffleCell_lxor].
Qed.

Lemma linear_layers_witness :
  is_bloque 0 /\ is_bloque 0x1234 /\ is_bloque 0xffffffffffffffff /\
  mixColumn 0 (keyAdd 0x0123456789ABCDEF 0xFEDCBA9876543210) =
  keyAdd (mixColumn 0x1234 0x0123456789ABCDEF)
         (mixColumn 0xffffffffffffffff 0xFEDCBA9876543210) /\
  shuffleCell 0 (keyAdd 0x0123456789ABCDEF 0xFEDCBA9876543210) 0 =
  keyAdd (shuffleCell 0x1234 0x0123456789ABCDEF 0)
         (shuffleCell 0xffffffffffffffff 0xFEDCBA9876543210 0).
Proof.
  assert (H0 : is_bloque 0) by (unfold is_bloque; lia).
  assert (H1 : is_bloque 0x1234) by (unfold is_bloque; lia).
  assert (H2 : is_bloque 0xffffffffffffffff) by (unfold is_bloque; lia).
  split; [exact H0|]. split; [exact H1|]. split; [exact H2|].
  exact (linear_layers 0 0x1234 0xffffffffffffffff
           0x0123456789ABCDEF 0xFEDCBA9876543210 0 H0 H1 H2).
Defined.

(** X5. [keyGen] returns [K0 xor K1] and leaves in [RK[i]], for [i] in
    0..14, the key half [K0] (even [i]) or [K1] (odd [i]) xored with the
    round constant [beta[i]] spread one bit per nibble; [RK[15]] and
    every cell outside 0..14 keep what they held. *)
Theorem keyGen_round_keys (RK : Z -> Z) (K0 K1 i k : Z) :
  is_bloque K0 -> is_bloque K1 -> is_bloque (RK i) -> 0 <= i < 15 ->
  k < 0 \/ 15 <= k ->
  fst (keyGen RK (K0, K1)) = Z.lxor K0 K1 /\
  snd (keyGen RK (K0, K1)) i =
    Z.lxor (if Z.even i then K0 else K1) (spread (beta_at i)) /\
  snd (keyGen RK (K0, K1)) k = RK k.
Proof.
  intros H0 H1 HR Hi Hk. split; [reflexivity|]. split.
  - rewrite keyGen_RK by trivial. cbn [fst snd]. now apply RK_xor.
  - now apply keyGen_untouched.
Qed.

Lemma keyGen_round_keys_witness :
  is_bloque 0x687ded3b3c85b3f3 /\ is_bloque 0x5b1009863e2a8cbf /\
  is_bloque (uRK U1 3) /\ 0 <= 3 < 15 /\ (15 < 0 \/ 15 <= 15) /\
  fst (keyGen (uRK U1) (0x687ded3b3c85b3f3, 0x5b1009863e2a8cbf)) =
    Z.lxor 0x687ded3b3c85b3f3 0x5b1009863e2a8cbf /\
  snd (keyGen (uRK U1) (0x687ded3b3c85b3f3, 0x5b1009863e2a8cbf)) 3 =
    Z.lxor (if Z.even 3 then 0x687ded3b3c85b3f3 else 0x5b1009863e2a8cbf)
           (spread (beta_at 3)) /\
  snd (keyGen (uRK U1) (0x687ded3b3c85b3f3, 0x5b1009863e2a8cbf)) 15 =
    uRK U1 15.
Proof.
  assert (H0 : is_bloque 0x687ded3b3c85b3f3) by (unfold is_bloque; lia).
  assert (H1 : is_bloque 0x5b1009863e2a8cbf) by (unfold is_bloque; lia).
  assert (HR : is_bloque (uRK U1 3)) by (vm_compute; split; [discriminate|reflexivity]).
  assert (Hi : 0 <= 3 < 15) by lia.
  assert (Hk : 15 < 0 \/ 15 <= 15) by (right; lia).
  split; [exact H0|]. split; [exact H1|]. split; [exact HR|].
  split; [exact Hi|]. split; [exact Hk|].
  exact (keyGen_round_keys (uRK U1) 0x687ded3b3c85b3f3
           0x5b1009863e2a8cbf 3 15 H0 H1 HR Hi Hk).
Defined.



(** X7. Under a fixed key [midori] with [inv = 0] maps 64-bit blocks to
    64-bit blocks and never maps two different blocks to the same
    block. *)
Theorem midori_injective (U U' : stack) (Ki : key) (S S' : Z) :
  stack_ok U -> stack_ok U' ->
  is_bloque (fst Ki) -> is_bloque (snd Ki) -> is_bloque S -> is_bloque S' ->
  is_bloque (midori U S Ki 0) /\
  (midori U S Ki 0 = midori U' S' Ki 0 -> S = S').
Proof.
  intros HU HU' H0 H1 HS HS'. split; [now apply midori_range|].
  intros Heq.
  assert (HR : forall i : Z, is_bloque ((fun _ : Z => 0) i))
    by (intros i; unfold is_bloque; lia).
  rewrite <- (rounds_keyGenInv_midori U U U (fun _ => 0) (fun _ => 0) 0 S 1 Ki)
    by (trivial; reflexivity).
  rewrite <- (rounds_keyGenInv_midori U' U U (fun _ => 0) (fun _ => 0) 0 S' 1 Ki)
    by (trivial; reflexivity).
  now rewrite Heq.
Qed.

Lemma midori_injective_witness :
  stack_ok U0 /\ stack_ok U1 /\ is_bloque (fst K_ex) /\ is_bloque (snd K_ex) /\
  is_bloque 0x42c20fd3b586879e /\ is_bloque 0x42c20fd3b586879f /\
  is_bloque (midori U0 0x42c20fd3b586879e K_ex 0) /\
  (midori U0 0x42c20fd3b586879e K_ex 0 = midori U1 0x42c20fd3b586879f K_ex 0 ->
   0x42c20fd3b586879e = 0x42c20fd3b586879f).
Proof.
  assert (H0 : stack_ok U0) by (intros i; unfold is_bloque; cbn; lia).
  assert (H1 : stack_ok U1).
  { intros i. unfold U1, is_bloque, u64. cbn [uRK uSC uSH uMC].
    repeat split; try (apply Z.mod_pos_bound); lia. }
  assert (Hk0 : is_bloque (fst K_ex)) by (unfold is_bloque; cbn; lia).
  assert (Hk1 : is_bloque (snd K_ex)) by (unfold is_bloque; cbn; lia).
  assert (HS : is_bloque 0x42c20fd3b586879e) by (unfold is_bloque; lia).
  assert (HS' : is_bloque 0x42c20fd3b586879f) by (unfold is_bloque; lia).
  split; [exact H0|]. split; [exact H1|]. split; [exact Hk0|].
  split; [exact Hk1|]. split; [exact HS|]. split; [exact HS'|].
  exact (midori_injective U0 U1 K_ex 0x42c20fd3b586879e 0x42c20fd3b586879f
           H0 H1 Hk0 Hk1 HS HS').
Defined.

(** X8. On 32-bit values [gsuma] is the bitwise xor (the two copies of
    [poliN] cancel and nothing is lost in the store to a [tn2]), and
    [gtriple a] is [a xor gdoble a]. *)
Theorem gsuma_gtriple_xor (a b : Z) :
  is_tn2 a -> is_tn2 b ->
  gsuma a b = Z.lxor a b /\ gtriple a = Z.lxor a (gdoble a).
Proof.
  intros Ha Hb. split; [|now apply gtriple_lxor_gdoble].
  rewrite gsuma_lxor. now apply u32_tn2, lxor_tn2.
Qed.

Lemma gsuma_gtriple_xor_witness :
  is_tn2 0x89ABCDEF /\ is_tn2 0x12345678 /\
  gsuma 0x89ABCDEF 0x12345678 = Z.lxor 0x89ABCDEF 0x12345678 /\
  gtriple 0x89ABCDEF = Z.lxor 0x89ABCDEF (gdoble 0x89ABCDEF).
Proof.
  assert (Ha : is_tn2 0x89ABCDEF) by (unfold is_tn2; lia).
  assert (Hb : is_tn2 0x12345678) by (unfold is_tn2; lia).
  split; [exact Ha|]. split; [exact Hb|].
  exact (gsuma_gtriple_xor 0x89ABCDEF 0x12345678 Ha Hb).
Defined.

(** X9. [gdoble] and [gtriple] are linear over xor on 32-bit values. *)
Theorem field_kernel_linear (a b : Z) :
  is_tn2 a -> is_tn2 b ->
  gdoble (Z.lxor a b) = Z.lxor (gdoble a) (gdoble b) /\
  gtriple (Z.lxor a b) = Z.lxor (gtriple a) (gtriple b).
Proof.
  intros Ha Hb. split; [apply gdoble_lxor|now apply gtriple_lxor].
Qed.

Lemma field_kernel_linear_witness :
  is_tn2 0x89ABCDEF /\ is_tn2 0x12345678 /\
  gdoble (Z.lxor 0x89ABCDEF 0x12345678) =
  Z.lxor (gdoble 0x89ABCDEF) (gdoble 0x12345678) /\
  gtriple (Z.lxor 0x89ABCDEF 0x12345678) =
  Z.lxor (gtriple 0x89ABCDEF) (gtriple 0x12345678).
Proof.
  assert (Ha : is_tn2 0x89ABCDEF) by (unfold is_tn2; lia).
  assert (Hb : is_tn2 0x12345678) by (unfold is_tn2; lia).
  split; [exact Ha|]. split; [exact Hb|].
  exact (field_kernel_linear 0x89ABCDEF 0x12345678 Ha Hb).
Defined.

(** X10. [gdoble] is a bijection on 32-bit values: its results are 32-bit
    values, it is undone by shifting back and refilling bit 31 from bit 0,
    and every 32-bit value is a double. *)
Theorem gdoble_bijective (a d : Z) :
  is_tn2 a -> is_tn2 d ->
  is_tn2 (gdoble a) /\ gdoble_inv (gdoble a) = a /\
  is_tn2 (gdoble_inv d) /\ gdoble (gdoble_inv d) = d.
Proof.
  intros Ha Hd. split; [apply gdoble_range|].
  split; [now apply gdoble_inv_gdoble|].
  split; [now apply gdoble_inv_range|now apply gdoble_gdoble_inv].
Qed.

Lemma gdoble_bijective_witness :
  is_tn2 0x89ABCDEF /\ is_tn2 0x12345678 /\
  is_tn2 (gdoble 0x89ABCDEF) /\ gdoble_inv (gdoble 0x89ABCDEF) = 0x89ABCDEF /\
  is_tn2 (gdoble_inv 0x12345678) /\
  gdoble (gdoble_inv 0x12345678) = 0x12345678.
Proof.
  assert (Ha : is_tn2 0x89ABCDEF) by (unfold is_tn2; lia).
  assert (Hb : is_tn2 0x12345678) by (unfold is_tn2; lia).
  split; [exact Ha|]. split; [exact Hb|].
  exact (gdoble_bijective 0x89ABCDEF 0x12345678 Ha Hb).
Defined.

(** X11. The mask schedule of the encrypt driver.  With [b] the 32 bits
    [maskGen] takes from [midori(N,K,0)], the blocks of the first line but
    the last are masked with [b] doubled once, twice, ...; the last block
    of the first line with the triple of the last double; the blocks of
    the second line but the last with the triples of the next doubles;
    the last block with the triple of the triple.  At the end [mx2] holds
    [b] doubled once per block that does not end a line, [mx2x3] its
    triple and [mx2x3x3] the triple of its triple. *)
Theorem COFB_mask_schedule (U : stack) (K : key) (N : Z) (f : FieldState)
  (A : list Z) (a : Z) (M : list Z) (m : Z) (rest : list token) :
  mask_trace (COFB_pass U K (fst (COFB_init U K N f)))
             (fst (COFB_init U K N f))
             (line A a ++ line M m ++ rest) (snd (COFB_init U K N f)) =
  doubles (length A) (u32 (maskGen (midori U N K 0)))
  ++ gtriple (Nat.iter (length A) gdoble (u32 (maskGen (midori U N K 0))))
  :: map gtriple
       (doubles (length M)
          (Nat.iter (length A) gdoble (u32 (maskGen (midori U N K 0)))))
  ++ [gtriple (gtriple (Nat.iter (length A + length M) gdoble
                          (u32 (maskGen (midori U N K 0)))))] /\
  exists g,
    COFB_run U K N f (line A a ++ line M m ++ rest) = Some g /\
    mx2 (field g) =
      Nat.iter (length A + length M) gdoble (u32 (maskGen (midori U N K 0))) /\
    mx2x3 (field g) = gtriple (mx2 (field g)) /\
    mx2x3x3 (field g) = gtriple (gtriple (mx2 (field g))).
Proof.
  unfold COFB_run.
  pose proof (surjective_pairing (COFB_init U K N f)) as E.
  assert (Hb : mx2 (field (snd (COFB_init U K N f))) =
               u32 (maskGen (midori U N K 0))) by reflexivity.
  set (beta := fst (COFB_init U K N f)) in *.
  set (d := snd (COFB_init U K N f)) in *.
  assert (Hd : exp d = 1) by reflexivity.
  rewrite E, <- Hb. clearbody d beta.
  destruct (two_lines_masks (COFB_pass U K beta) beta
              (COFB_pass_exp U K beta) (COFB_pass_field U K beta)
              A a M m rest d Hd) as (g & Hrun & Hm & H3 & H33 & Htrace).
  split; [exact Htrace|]. exists g. rewrite Hrun.
  split; [reflexivity|]. split; [exact Hm|]. split; [exact H3|exact H33].
Qed.

(** X12. Both drivers stop reading at the second end of line: what follows
    the two lines in the input changes neither the blocks printed nor the
    tag. *)
Theorem drivers_ignore_trailing_input (U : stack) (K : key) (N T : Z)
  (f : FieldState) (A : list Z) (a : Z) (M : list Z) (m : Z)
  (rest rest' : list token) :
  COFB U K N f (line A a ++ line M m ++ rest) =
  COFB U K N f (line A a ++ line M m ++ rest') /\
  dCOFB U K N T f (line A a ++ line M m ++ rest) =
  dCOFB U K N T f (line A a ++ line M m ++ rest').
Proof.
  unfold COFB, dCOFB, COFB_run, dCOFB_run.
  pose proof (surjective_pairing (COFB_init U K N f)) as E.
  set (beta := fst (COFB_init U K N f)) in *.
  set (d := snd (COFB_init U K N f)) in *.
  assert (Hd : exp d = 1) by reflexivity.
  rewrite E. clearbody d beta.
  destruct (two_lines_only (COFB_pass U K beta) (COFB_pass_exp U K beta)
              (COFB_pass_printed U K beta) A a M m d Hd) as (g & Hg).
  destruct (two_lines_only (dCOFB_pass U K beta) (dCOFB_pass_exp U K beta)
              (dCOFB_pass_printed U K beta) A a M m d Hd) as (g' & Hg').
  rewrite (Hg rest), (Hg rest'), (Hg' rest), (Hg' rest').
  split; reflexivity.
Qed.

(** X13. The encrypt driver works block by block: the ciphertext blocks
    printed for the first blocks [M1] of the second line are the same
    whatever blocks follow them on that line. *)
Theorem COFB_prefix (U : stack) (K : key) (N : Z) (f : FieldState)
  (A : list Z) (a : Z) (M1 M2 M2' : list Z) (m m' : Z)
  (rest rest' : list token) :
  exists P cs cs' T T',
    length P = length M1 /\
    COFB U K N f (line A a ++ line (M1 ++ M2) m ++ rest)
    = Some (P ++ cs, T) /\
    COFB U K N f (line A a ++ line (M1 ++ M2') m' ++ rest')
    = Some (P ++ cs', T').
Proof.
  unfold COFB, COFB_run.
  pose proof (surjective_pairing (COFB_init U K N f)) as E.
  set (beta := fst (COFB_init U K N f)) in *.
  set (d := snd (COFB_init U K N f)) in *.
  assert (Hd : exp d = 1) by reflexivity.
  assert (Hp : printed d = []) by reflexivity.
  rewrite E. clearbody d beta.
  destruct (prefix_printed (COFB_pass U K beta) (COFB_pass_exp U K beta)
              (COFB_pass_printed U K beta) A a M1 M2 M2' m m' rest rest' d Hd)
    as (P & cs & cs' & g & g' & HP & -> & Hg & -> & Hg').
  exists P, cs, cs', (Y g), (Y g'). split; [exact HP|].
  cbn [option_map]. unfold observe. rewrite Hg, Hg', Hp.
  split; reflexivity.
Qed.

(** X14. The decrypt driver prints each block as the xor of the block read
    with a value that depends on the earlier blocks only: flipping bits of
    the last ciphertext block flips the same bits of the last block
    printed and leaves the blocks printed before unchanged. *)
Theorem dCOFB_last_block_xor (U : stack) (K : key) (N T T' : Z)
  (f : FieldState) (A : list Z) (a : Z) (C : list Z) (c delta : Z)
  (rest rest' : list token) :
  exists P p T1 T2,
    length P = length C /\
    dCOFB U K N T f (line A a ++ line C c ++ rest) = Some (P ++ [p], T1) /\
    dCOFB U K N T' f (line A a ++ line C (Z.lxor c delta) ++ rest')
    = Some (P ++ [Z.lxor p delta], T2).
Proof.
  unfold dCOFB, dCOFB_run.
  pose proof (surjective_pairing (COFB_init U K N f)) as E.
  set (beta := fst (COFB_init U K N f)) in *.
  set (d := snd (COFB_init U K N f)) in *.
  assert (Hd : exp d = 1) by reflexivity.
  assert (Hp : printed d = []) by reflexivity.
  rewrite E. clearbody d beta.
  destruct (last_block_xor (dCOFB_pass U K beta) (dCOFB_pass_exp U K beta)
              (dCOFB_pass_printed U K beta) A a C c delta rest rest' d Hd)
    as (P & p & g & g' & HP & -> & Hg & -> & Hg').
  exists P, p, (Y g), (Y g'). split; [exact HP|].
  cbn [option_map]. unfold observe. rewrite Hg, Hg', Hp.
  split; reflexivity.
Qed.

(** X15. [reverse] gives a 64-bit block whose byte [k] is byte [7 - k] of
    its argument, and applied twice to a 64-bit block it gives the block
    back. *)
Theorem reverse_involution (a i : Z) :
  is_bloque a -> 0 <= i < 64 ->
  is_bloque (reverse a) /\
  Z.testbit (reverse a) i = Z.testbit a (8 * (7 - i / 8) + i mod 8) /\
  reverse (reverse a) = a.
Proof.
  intros Ha Hi. split; [apply reverse_range|]. split.
  - rewrite reverse_bits by lia.
    now rewrite (proj2 (Z.ltb_lt i 64)) by lia.
  - now apply reverse_reverse.
Qed.

Lemma reverse_involution_witness :
  is_bloque 0x0102030405060708 /\ 0 <= 9 < 64 /\
  is_bloque (reverse 0x0102030405060708) /\
  Z.testbit (reverse 0x0102030405060708) 9 =
  Z.testbit 0x0102030405060708 (8 * (7 - 9 / 8) + 9 mod 8) /\
  reverse (reverse 0x0102030405060708) = 0x0102030405060708.
Proof.
  assert (Ha : is_bloque 0x0102030405060708) by (unfold is_bloque; lia).
  assert (Hi : 0 <= 9 < 64) by lia.
  split; [exact Ha|]. split; [exact Hi|].
  exact (reverse_involution 0x0102030405060708 9 Ha Hi).
Defined.

Example reverse_example : reverse 0x0102030405060708 = 0x0807060504030201.
Proof. reflexivity. Qed.

(** X16. [leeBin] reads back the text [impBin] writes: for every 32-bit
    [num], [leeBin] of the 194 characters of [impBin num] is [num]. *)
Theorem leeBin_impBin_round_trip (num : Z) :
  is_tn2 num ->
  length (impBin num) = 194%nat /\ leeBin (impBin num) = num.
Proof.
  intros Hn. split; [apply impBin_length|now apply leeBin_impBin].
Qed.

Lemma leeBin_impBin_round_trip_witness :
  is_tn2 0x89ABCDEF /\
  length (impBin 0x89ABCDEF) = 194%nat /\
  leeBin (impBin 0x89ABCDEF) = 0x89ABCDEF.
Proof.
  assert (Hn : is_tn2 0x89ABCDEF) by (unfold is_tn2; lia).
  split; [exact Hn|].
  exact (leeBin_impBin_round_trip 0x89ABCDEF Hn).
Defined.

(** X17. On a string of fewer than 256 characters [hayNL] returns 1 when
    the string holds a newline and 0 when it does not.  The length is
    kept in a [byte]: on a string whose length is a multiple of 256 the
    loop does not run and [hayNL] returns 0 whatever the string holds. *)
Theorem hayNL_newline (a b : list Z) :
  (length a < 256)%nat -> Z.of_nat (length b) mod 256 = 0 ->
  (hayNL a = 1 <-> In 10 a) /\ (hayNL a = 0 <-> ~ In 10 a) /\ hayNL b = 0.
Proof.
  intros Ha Hb.
  assert (E : hayNL a = if existsb (Z.eqb 10) a then 1 else 0).
  { unfold hayNL. cbv zeta. unfold u8. rewrite Z.mod_small by lia.
    rewrite Nat2Z.id. now apply hayNL_loop_spec. }
  assert (Hex : existsb (Z.eqb 10) a = true <-> In 10 a).
  { rewrite existsb_exists. split.
    - intros (x & Hx & Heq). apply Z.eqb_eq in Heq. now subst.
    - intros Hin. exists 10. split; [exact Hin|reflexivity]. }
  rewrite E. split; [|split].
  - rewrite <- Hex. destruct (existsb (Z.eqb 10) a); split; intros H;
      try reflexivity; discriminate.
  - rewrite <- Hex. destruct (existsb (Z.eqb 10) a); split; intros H;
      try reflexivity; try discriminate; now destruct H.
  - unfold hayNL. cbv zeta. unfold u8. change (2 ^ 8) with 256. rewrite Hb.
    now destruct b.
Qed.

Lemma hayNL_newline_witness :
  (length [56; 57; 65; 10; 66] < 256)%nat /\
  Z.of_nat (length (repeat 10 256)) mod 256 = 0 /\
  (hayNL [56; 57; 65; 10; 66] = 1 <-> In 10 [56; 57; 65; 10; 66]) /\
  (hayNL [56; 57; 65; 10; 66] = 0 <-> ~ In 10 [56; 57; 65; 10; 66]) /\
  hayNL (repeat 10 256) = 0.
Proof.
  assert (Ha : (length [56; 57; 65; 10; 66] < 256)%nat) by (cbn; lia).
  assert (Hb : Z.of_nat (length (repeat 10 256)) mod 256 = 0)
    by (vm_compute; reflexivity).
  split; [exact Ha|]. split; [exact Hb|].
  exact (hayNL_newline [56; 57; 65; 10; 66] (repeat 10 256) Ha Hb).
Defined.

(** X18. [main] on two lines.  When the second call reads the first line
    again and then the ciphertext the first call printed, the line M:
    shows the blocks of the second line of the first call and the tags T:
    and T_: are equal, although the second call starts from the static
    variables as the first call left them. *)
Theorem main_tags_agree (U U' : stack) (K : key) (N : Z)
  (A : list Z) (a : Z) (M : list Z) (m : Z) :
  stack_ok U -> stack_ok U' ->
  exists C c T,
    length C = length M /\
    forall rest rest',
      main U U' K N (line A a ++ line M m ++ rest)
                    (line A a ++ line C c ++ rest')
      = Some ((C ++ [c], T), (M ++ [m], T)).
Proof. exact (main_two_lines U U' K N A a M m). Qed.

Lemma main_tags_agree_witness :
  stack_ok U0 /\ stack_ok U1 /\
  exists C c T,
    length C = length [0x0123456789abcdef] /\
    forall rest rest',
      main U0 U1 K_ex N_ex
        (line [0x1111] 0x2222 ++ line [0x0123456789abcdef] 0x3333 ++ rest)
        (line [0x1111] 0x2222 ++ line C c ++ rest')
      = Some ((C ++ [c], T), ([0x0123456789abcdef] ++ [0x3333], T)).
Proof.
  assert (H0 : stack_ok U0) by (intros i; unfold is_bloque; cbn; lia).
  assert (H1 : stack_ok U1).
  { intros i. unfold U1, is_bloque, u64. cbn [uRK uSC uSH uMC].
    repeat split; try (apply Z.mod_pos_bound); lia. }
  split; [exact H0|]. split; [exact H1|].
  exact (main_tags_agree U0 U1 K_ex N_ex [0x1111] 0x2222
           [0x0123456789abcdef] 0x3333 H0 H1).
Defined.

(** X19. On two lines of 64-bit blocks and a key of two 64-bit words, both
    drivers return, and the tag and every block printed are 64-bit
    values. *)
Theorem drivers_width (U : stack) (K : key) (N T : Z) (f : FieldState)
  (A : list Z) (a : Z) (M : list Z) (m : Z) (rest : list token) :
  stack_ok U -> is_bloque (fst K) -> is_bloque (snd K) ->
  Forall is_bloque (A ++ a :: M ++ [m]) ->
  (exists cs T1,
     COFB U K N f (line A a ++ line M m ++ rest) = Some (cs, T1) /\
     Forall is_bloque cs /\ is_bloque T1) /\
  (exists ps T2,
     dCOFB U K N T f (line A a ++ line M m ++ rest) = Some (ps, T2) /\
     Forall is_bloque ps /\ is_bloque T2).
Proof.
  intros HU H0 H1 Hin.
  assert (Hts : Forall (fun t => is_bloque (tok_B t))
                  (line A a ++ line M m ++ [])).
  { apply Forall_app in Hin. destruct Hin as (HA & Hin).
    apply Forall_cons_iff in Hin. destruct Hin as (Ha & Hin).
    apply Forall_app in Hin. destruct Hin as (HM & Hm).
    apply Forall_cons_iff in Hm. destruct Hm as (Hm & _).
    unfold line. rewrite app_nil_r.
    repeat (apply Forall_app; split);
      try (apply Forall_map; cbn [tok_B]; assumption);
      constructor; trivial. }
  unfold COFB, dCOFB.
  pose proof (COFB_run_width U K N f (line A a ++ line M m ++ [])) as Hc.
  pose proof (dCOFB_run_width U K N T f (line A a ++ line M m ++ [])) as Hd.
  pose proof (surjective_pairing (COFB_init U K N f)) as E.
  unfold COFB_run, dCOFB_run in *.
  set (beta := fst (COFB_init U K N f)) in *.
  set (d := snd (COFB_init U K N f)) in *.
  assert (Hexp : exp d = 1) by reflexivity.
  rewrite E in *. clearbody d beta.
  destruct (two_lines_only (COFB_pass U K beta) (COFB_pass_exp U K beta)
              (COFB_pass_printed U K beta) A a M m d Hexp) as (g & Hg).
  destruct (two_lines_only (dCOFB_pass U K beta) (dCOFB_pass_exp U K beta)
              (dCOFB_pass_printed U K beta) A a M m d Hexp) as (g' & Hg').
  rewrite (Hg rest), (Hg' rest). rewrite (Hg []) in Hc. rewrite (Hg' []) in Hd.
  destruct (Hc g HU H0 H1 Hts eq_refl) as (Hy & Hp).
  destruct (Hd g' HU H0 H1 Hts eq_refl) as (Hy' & Hp').
  split.
  - exists (printed g), (Y g). split; [reflexivity|]. split; assumption.
  - exists (printed g'), (Y g'). split; [reflexivity|]. split; assumption.
Qed.

Lemma drivers_width_witness :
  stack_ok U0 /\ is_bloque (fst K_ex) /\ is_bloque (snd K_ex) /\
  Forall is_bloque ([0x1111] ++ 0x2222 :: [0x0123456789abcdef] ++ [0x3333]) /\
  (exists cs T1,
     COFB U0 K_ex N_ex fresh
       (line [0x1111] 0x2222 ++ line [0x0123456789abcdef] 0x3333 ++ [])
     = Some (cs, T1) /\ Forall is_bloque cs /\ is_bloque T1) /\
  (exists ps T2,
     dCOFB U0 K_ex N_ex 0 fresh
       (line [0x1111] 0x2222 ++ line [0x0123456789abcdef] 0x3333 ++ [])
     = Some (ps, T2) /\ Forall is_bloque ps /\ is_bloque T2).
Proof.
  assert (HU : stack_ok U0) by (intros i; unfold is_bloque; cbn; lia).
  assert (H0 : is_bloque (fst K_ex)) by (unfold is_bloque, K_ex; cbn [fst snd]; lia).
  assert (H1 : is_bloque (snd K_ex)) by (unfold is_bloque, K_ex; cbn [fst snd]; lia).
  assert (Hin : Forall is_bloque
            ([0x1111] ++ 0x2222 :: [0x0123456789abcdef] ++ [0x3333])).
  { cbn [app]. repeat constructor; unfold is_bloque; lia. }
  split; [exact HU|]. split; [exact H0|]. split; [exact H1|].
  split; [exact Hin|].
  exact (drivers_width U0 K_ex N_ex 0 fresh [0x1111] 0x2222
           [0x0123456789abcdef] 0x3333 [] HU H0 H1 Hin).
Defined.

(** X20. [mulGY] is linear over xor on 64-bit blocks and sends 0 to 0. *)
Theorem mulGY_linear (a b : Z) :
  is_bloque a -> is_bloque b ->
  mulGY (Z.lxor a b) = Z.lxor (mulGY a) (mulGY b) /\ mulGY 0 = 0.
Proof.
  intros Ha Hb. split; [now apply mulGY_lxor|reflexivity].
Qed.

Lemma mulGY_linear_witness :
  is_bloque 0x0123456789abcdef /\ is_bloque 0xfedcba9876543210 /\
  mulGY (Z.lxor 0x0123456789abcdef 0xfedcba9876543210) =
  Z.lxor (mulGY 0x0123456789abcdef) (mulGY 0xfedcba9876543210) /\
  mulGY 0 = 0.
Proof.
  assert (Ha : is_bloque 0x0123456789abcdef) by (unfold is_bloque; lia).
  assert (Hb : is_bloque 0xfedcba9876543210) by (unfold is_bloque; lia).
  split; [exact Ha|]. split; [exact Hb|].
  exact (mulGY_linear 0x0123456789abcdef 0xfedcba9876543210 Ha Hb).
Defined.
